(** * Gaussian elimination without pivoting ([Labo 5/elim_gaussiana.py])

    A shallow embedding of [elim_gaussiana] and of the driver [main], and
    the properties of the LU factorisation they compute.

    NumPy arrays are objects living in a store: [A.copy()] allocates a new
    array, [Ac[j][k] = v] overwrites one cell of the array [Ac] refers to,
    and [np.tril], [np.triu], [np.eye], [+] and [@] allocate their results.
    The program is therefore written in a small state-and-exception monad
    over a store of arrays plus the text printed so far; an index out of
    range raises [IndexError] as in Python.

    The entries of the arrays are kept abstract behind the interface
    [Scalar]. The program runs on IEEE-754 binary64 entries, which is what
    NumPy computes with on [float64] arrays, and every statement about a
    run is about that instance or holds of any instance. The rationals are
    a second instance; no run computes with them. They give the value a
    finite binary64 entry stands for and the meaning of an exact product,
    and they carry the algebra of the factorisation. Arrays of an integer
    dtype, whose cells truncate what is stored in them, are not covered.

    The first part of the file holds the definitions: the arrays, the
    program, the loops read as folds, and the vocabulary of the statements.
    The second part holds the proofs: the program computes the folds
    ([eliminate_refines], [elim_gaussiana_square]), then the properties of
    the factors, of the count, of a zero pivot, and of the product
    [L U] for runs that round and for runs that do not. *)

From Stdlib Require Import ZArith QArith Qpower Qcanon Field SpecFloat.
From stdpp Require Import gmap strings list.

Close Scope Qc_scope.
Close Scope Q_scope.
Local Open Scope nat_scope.

(** ** Scalars *)

(** The operations the program applies to array entries. [fneq0 x] is the
    test [x != 0], [fleb x y] is [x <= y], [fmax] is [np.maximum] and
    [fof_Z z] is the entry written as the integer literal [z]. *)
Class Scalar (F : Type) := {
  fzero : F;
  fone : F;
  fadd : F → F → F;
  fsub : F → F → F;
  fmul : F → F → F;
  fdiv : F → F → F;
  fabs : F → F;
  fmax : F → F → F;
  fneq0 : F → bool;
  fleb : F → F → bool;
  fof_Z : Z → F;
}.

(** ** Arrays as values *)

(** A two-dimensional array: its shape and its rows. *)
Record ndarray (F : Type) := NdArray {
  shape0 : nat;
  shape1 : nat;
  rows : list (list F);
}.
Arguments NdArray {F} _ _ _.
Arguments shape0 {F} _.
Arguments shape1 {F} _.
Arguments rows {F} _.

(** Every array NumPy builds is rectangular. *)
Definition wf {F} (a : ndarray F) : Prop :=
  length (rows a) = shape0 a ∧ Forall (λ r, length r = shape1 a) (rows a).

Definition wfb {F} (a : ndarray F) : bool :=
  (length (rows a) =? shape0 a) && forallb (λ r, length r =? shape1 a) (rows a).

Section Arrays.
Context {F : Type} `{Scalar F}.

(** [a[i][j]], when both indices are in range. *)
Definition lookup2 (a : ndarray F) (i j : nat) : option F :=
  rows a !! i ≫= (.!! j).

(** [a[i][j]] read as a value; [fzero] stands for an entry that does not
    exist. *)
Definition item (a : ndarray F) (i j : nat) : F :=
  default fzero (lookup2 a i j).

(** The array [a] after [a[i][j] = v]. *)
Definition store (a : ndarray F) (i j : nat) (v : F) : ndarray F :=
  NdArray (shape0 a) (shape1 a) (alter (λ r, <[j:=v]> r) i (rows a)).

(** The [m]×[n] array whose entry [(i, j)] is [f i j]. *)
Definition tabulate (m n : nat) (f : nat → nat → F) : ndarray F :=
  NdArray m n (map (λ i, map (λ j, f i j) (seq 0 n)) (seq 0 m)).

(** [np.tril(a, k)]: entries above the [k]-th diagonal become zero. *)
Definition tril (a : ndarray F) (k : Z) : ndarray F :=
  tabulate (shape0 a) (shape1 a)
    (λ i j, if (Z.of_nat j <=? Z.of_nat i + k)%Z then item a i j else fzero).

(** [np.triu(a, k)]: entries below the [k]-th diagonal become zero. *)
Definition triu (a : ndarray F) (k : Z) : ndarray F :=
  tabulate (shape0 a) (shape1 a)
    (λ i j, if (Z.of_nat i + k <=? Z.of_nat j)%Z then item a i j else fzero).

(** [np.eye(n)]. *)
Definition eye (n : nat) : ndarray F :=
  tabulate n n (λ i j, if i =? j then fone else fzero).

(** [np.ones((m, n))]. *)
Definition ones (m n : nat) : ndarray F :=
  tabulate m n (λ _ _, fone).

(** [a + b] and [a - b] for arrays of one shape. *)
Definition arr_add (a b : ndarray F) : ndarray F :=
  tabulate (shape0 a) (shape1 a) (λ i j, fadd (item a i j) (item b i j)).

Definition arr_sub (a b : ndarray F) : ndarray F :=
  tabulate (shape0 a) (shape1 a) (λ i j, fsub (item a i j) (item b i j)).

(** [sum_{k < n} f k], added from left to right starting from zero. *)
Fixpoint sum_upto (n : nat) (f : nat → F) : F :=
  match n with
  | 0 => fzero
  | S n' => fadd (sum_upto n' f) (f n')
  end.

(** [a @ b], each entry added from left to right. NumPy may add in
    another order or with fused multiply-add; over binary64 this function
    is evaluated below only on sums that come out the same either way. *)
Definition matmul (a b : ndarray F) : ndarray F :=
  tabulate (shape0 a) (shape1 b)
    (λ i j, sum_upto (shape1 a) (λ k, fmul (item a i k) (item b k j))).

(** [np.max(np.sum(np.abs(a), axis=1))], the infinity norm. The row sums
    are added from left to right, as [np.sum] does for rows of fewer than
    8 entries. *)
Definition row_abs_sum (r : list F) : F :=
  foldl (λ s x, fadd s (fabs x)) fzero r.

Definition max_of (xs : list F) : F :=
  match xs with
  | [] => fzero
  | s :: ss => foldl fmax s ss
  end.

Definition norm_inf (a : ndarray F) : F :=
  max_of (map row_abs_sum (rows a)).

(** [np.linalg.norm(a, 1)], the largest absolute column sum. *)
Definition col_abs_sum (a : ndarray F) (j : nat) : F :=
  foldl (λ s r, fadd s (fabs (default fzero (r !! j)))) fzero (rows a).

Definition norm_1 (a : ndarray F) : F :=
  max_of (map (col_abs_sum a) (seq 0 (shape1 a))).

(** [np.allclose(x, y)] on two scalars, with NumPy's default tolerances
    [rtol = 1e-05] and [atol = 1e-08]: [|x - y| <= atol + rtol * |y|]. *)
Definition rtol : F := fdiv (fof_Z 1) (fof_Z 100000).
Definition atol : F := fdiv (fof_Z 1) (fof_Z 100000000).

Definition allclose (x y : F) : bool :=
  fleb (fabs (fsub x y)) (fadd atol (fmul rtol (fabs y))).

(** Element-for-element equality of two arrays of one shape. *)
Definition same_entries (a b : ndarray F) : Prop :=
  shape0 a = shape0 b ∧ shape1 a = shape1 b ∧
  ∀ i j, i < shape0 a → j < shape1 a → item a i j = item b i j.
End Arrays.

(** ** The store, printing and exceptions *)

Definition loc := nat.

Record world (F : Type) := World {
  heap : gmap loc (ndarray F);
  stdout : list string;
}.
Arguments World {F} _ _.
Arguments heap {F} _.
Arguments stdout {F} _.

Inductive exn := IndexError | TypeError | UnboundRef.

Inductive outcome (X : Type) :=
  | Ok (x : X)
  | Raise (e : exn).
Arguments Ok {X} _.
Arguments Raise {X} _.

Definition M (F X : Type) : Type := world F → outcome X * world F.

Definition ret {F X} (x : X) : M F X := λ w, (Ok x, w).

Definition bind {F X Y} (c : M F X) (k : X → M F Y) : M F Y :=
  λ w, match c w with
       | (Ok x, w') => k x w'
       | (Raise e, w') => (Raise e, w')
       end.

Definition raise {F X} (e : exn) : M F X := λ w, (Raise e, w).

Notation "x ←← c ;; k" := (bind c (λ x, k))
  (at level 100, c at next level, right associativity,
   format "'[v' x  ←←  c ;;  '/' k ']'").
Notation "c ;;; k" := (bind c (λ _, k))
  (at level 100, right associativity).

(** [for x in xs: s = body(x, s)], with [s] the variables the body assigns. *)
Fixpoint for_each {F S} (xs : list nat) (body : nat → S → M F S) (s : S) : M F S :=
  match xs with
  | [] => ret s
  | x :: xs' => s' ←← body x s ;; for_each xs' body s'
  end.

(** [range(lo, hi)]. *)
Definition range (lo hi : nat) : list nat := seq lo (hi - lo).

Section Program.
Context {F : Type} `{Scalar F}.

Definition deref (l : loc) : M F (ndarray F) :=
  λ w, match heap w !! l with
       | Some a => (Ok a, w)
       | None => (Raise UnboundRef, w)
       end.

Definition alloc (a : ndarray F) : M F loc :=
  λ w, let l := fresh (dom (heap w)) in
       (Ok l, World (<[l:=a]> (heap w)) (stdout w)).

Definition assign (l : loc) (a : ndarray F) : M F unit :=
  λ w, (Ok tt, World (<[l:=a]> (heap w)) (stdout w)).

Definition print (s : string) : M F unit :=
  λ w, (Ok tt, World (heap w) (stdout w ++ [s])).

(** [A.shape]. *)
Definition shape (l : loc) : M F (nat * nat) :=
  a ←← deref l ;; ret (shape0 a, shape1 a).

(** [A[i][j]]; an index out of range raises [IndexError]. *)
Definition getitem (l : loc) (i j : nat) : M F F :=
  a ←← deref l ;;
  match lookup2 a i j with
  | Some x => ret x
  | None => raise IndexError
  end.

(** [A[i][j] = v]: the array [l] refers to is overwritten in place. *)
Definition setitem (l : loc) (i j : nat) (v : F) : M F unit :=
  a ←← deref l ;;
  match lookup2 a i j with
  | Some _ => assign l (store a i j v)
  | None => raise IndexError
  end.

Definition np_copy (l : loc) : M F loc := a ←← deref l ;; alloc a.
Definition np_tril (l : loc) (k : Z) : M F loc := a ←← deref l ;; alloc (tril a k).
Definition np_triu (l : loc) (k : Z) : M F loc := a ←← deref l ;; alloc (triu a k).
Definition np_eye (n : nat) : M F loc := alloc (eye n).
Definition np_ones (m n : nat) : M F loc := alloc (ones m n).
Definition np_add (l1 l2 : loc) : M F loc :=
  a ←← deref l1 ;; b ←← deref l2 ;; alloc (arr_add a b).
Definition np_sub (l1 l2 : loc) : M F loc :=
  a ←← deref l1 ;; b ←← deref l2 ;; alloc (arr_sub a b).
Definition np_matmul (l1 l2 : loc) : M F loc :=
  a ←← deref l1 ;; b ←← deref l2 ;; alloc (matmul a b).

(** The innermost loop, lines 25-27. *)
Definition update_row (Ac : loc) (i j n : nat) (multi : F) (cant_op : nat) : M F nat :=
  for_each (range (i + 1) n) (λ k cant_op,
    ajk ←← getitem Ac j k ;;
    aik ←← getitem Ac i k ;;
    setitem Ac j k (fsub ajk (fmul multi aik)) ;;;
    ret (cant_op + 2)) cant_op.

(** The body of the loop over [j], lines 21-31. *)
Definition eliminate_row (Ac : loc) (i n j : nat) (cant_op : nat) : M F nat :=
  aji ←← getitem Ac j i ;;
  if fneq0 aji then
    aji ←← getitem Ac j i ;;
    aii ←← getitem Ac i i ;;
    let multi := fdiv aji aii in
    cant_op ←← update_row Ac i j n multi cant_op ;;
    let cant_op := cant_op + 1 in
    setitem Ac j i multi ;;;
    ret cant_op
  else ret cant_op.

(** The two outer loops, lines 19-20. *)
Definition eliminate (Ac : loc) (m n : nat) (cant_op : nat) : M F nat :=
  for_each (range 0 n) (λ i cant_op,
    for_each (range (i + 1) m) (eliminate_row Ac i n) cant_op) cant_op.

Definition elim_gaussiana (A : loc) : M F (option (loc * loc * nat)) :=
  let cant_op := 0 in
  sh ←← shape A ;;
  let m := sh.1 in
  let n := sh.2 in
  Ac ←← np_copy A ;;
  if negb (m =? n) then
    print "Matriz no cuadrada" ;;;
    ret None
  else
    cant_op ←← eliminate Ac m n cant_op ;;
    T ←← np_tril Ac (-1) ;;
    E ←← np_eye m ;;
    L ←← np_add T E ;;
    U ←← np_triu Ac 0 ;;
    ret (Some (L, U, cant_op)).

(** What [main] computes and prints: the arrays [B], [L] and [U], the
    operation count, the answer to [B=LU?] and the infinity norm of [U].
    The formatting of numbers as text is not modelled. *)
Record report := Report {
  rep_B : loc;
  rep_L : loc;
  rep_U : loc;
  rep_oper : nat;
  rep_close : bool;
  rep_norm : F;
}.

(** [B[:n, c] = v]. *)
Definition set_column (B : loc) (n c : nat) (v : F) : M F unit :=
  for_each (range 0 n) (λ r _, setitem B r c v) tt.

Definition main : M F report :=
  let n := 7 in
  E ←← np_eye n ;;
  O ←← np_ones n n ;;
  T ←← np_tril O (-1) ;;
  B ←← np_sub E T ;;
  set_column B n (n - 1) fone ;;;
  r ←← elim_gaussiana B ;;
  match r with
  | None => raise TypeError
  | Some (L, U, cant_oper) =>
      P ←← np_matmul L U ;;
      D ←← np_sub B P ;;
      d ←← deref D ;;
      u ←← deref U ;;
      ret (Report B L U cant_oper (allclose (norm_1 d) fzero) (norm_inf u))
  end.
End Program.
Arguments report : clear implicits.

(** ** The loops as functions on array values *)

(** What the three loops do to the array [Ac] refers to and to [cant_op],
    written as folds; [eliminate_refines] below shows that the program
    computes exactly this. *)
Section Loops.
Context {F : Type} `{Scalar F}.

Definition update_cell (i j : nat) (multi : F) (s : ndarray F * nat) (k : nat)
    : ndarray F * nat :=
  (store s.1 j k (fsub (item s.1 j k) (fmul multi (item s.1 i k))), s.2 + 2).

Definition update_row_v (i j n : nat) (multi : F) (s : ndarray F * nat)
    : ndarray F * nat :=
  foldl (update_cell i j multi) s (range (i + 1) n).

Definition eliminate_row_v (i n : nat) (s : ndarray F * nat) (j : nat)
    : ndarray F * nat :=
  if fneq0 (item s.1 j i) then
    let multi := fdiv (item s.1 j i) (item s.1 i i) in
    let s' := update_row_v i j n multi s in
    (store s'.1 j i multi, s'.2 + 1)
  else s.

Definition eliminate_col_v (m n : nat) (s : ndarray F * nat) (i : nat)
    : ndarray F * nat :=
  foldl (eliminate_row_v i n) s (range (i + 1) m).

Definition eliminate_v (m n : nat) (s : ndarray F * nat) : ndarray F * nat :=
  foldl (eliminate_col_v m n) s (range 0 n).

(** The factors read off the packed array. *)
Definition factor_L (a : ndarray F) : ndarray F :=
  arr_add (tril a (-1)) (eye (shape0 a)).

Definition factor_U (a : ndarray F) : ndarray F := triu a 0.

(** No division by a zero pivot happens: whenever a row [j] has a nonzero
    entry under the pivot of column [i], that pivot is nonzero. The check
    follows the loops and looks at the array as it is when row [j] is
    reached. *)
Definition pivot_ok (a : ndarray F) (i j : nat) : bool :=
  implb (fneq0 (item a j i)) (fneq0 (item a i i)).

Fixpoint pivots_ok_rows (i n : nat) (js : list nat) (s : ndarray F * nat) : bool :=
  match js with
  | [] => true
  | j :: js' => pivot_ok s.1 i j && pivots_ok_rows i n js' (eliminate_row_v i n s j)
  end.

Fixpoint pivots_ok_cols (m n : nat) (cols : list nat) (s : ndarray F * nat) : bool :=
  match cols with
  | [] => true
  | i :: cols' =>
      pivots_ok_rows i n (range (i + 1) m) s
      && pivots_ok_cols m n cols' (eliminate_col_v m n s i)
  end.

Definition pivots_ok (a : ndarray F) : bool :=
  pivots_ok_cols (shape0 a) (shape1 a) (range 0 (shape1 a)) (a, 0).
End Loops.

(** ** Two kinds of entries *)

(** IEEE-754 binary64, the [float64] of NumPy. Division by zero gives an
    infinity or a NaN and raises nothing; [x != 0] holds of a NaN. *)
Module B64.
Definition prec : Z := 53.
Definition emax : Z := 1024.

Definition of_Z (z : Z) : spec_float := binary_normalize prec emax z 0 false.

Definition maximum (x y : spec_float) : spec_float :=
  match SFcompare x y with
  | Some Lt => y
  | Some _ => x
  | None => S754_nan
  end.

Definition is_finite (x : spec_float) : bool :=
  match x with
  | S754_zero _ | S754_finite _ _ _ => true
  | S754_infinity _ | S754_nan => false
  end.

(** An entry that is an infinity or a NaN. *)
Definition nonfinite (x : spec_float) : Prop := is_finite x = false.

#[global] Instance scalar : Scalar spec_float := {|
  fzero := S754_zero false;
  fone := of_Z 1;
  fadd := SFadd prec emax;
  fsub := SFsub prec emax;
  fmul := SFmul prec emax;
  fdiv := SFdiv prec emax;
  fabs := SFabs;
  fmax := maximum;
  fneq0 := λ x, negb (SFeqb x (S754_zero false));
  fleb := SFleb;
  fof_Z := of_Z;
|}.
End B64.

(** The rationals: the values that finite binary64 entries stand for.
    The program does not run on them. *)
Module Rat.
Definition maximum (x y : Qc) : Qc :=
  match Qccompare x y with
  | Lt => y
  | _ => x
  end.

Definition leb (x y : Qc) : bool :=
  match Qccompare x y with
  | Gt => false
  | _ => true
  end.

Definition abs (x : Qc) : Qc := if leb 0%Qc x then x else Qcopp x.

#[global] Instance scalar : Scalar Qc := {|
  fzero := 0%Qc;
  fone := 1%Qc;
  fadd := Qcplus;
  fsub := Qcminus;
  fmul := Qcmult;
  fdiv := Qcdiv;
  fabs := abs;
  fmax := maximum;
  fneq0 := λ x, negb (Qc_eq_bool x 0%Qc);
  fleb := leb;
  fof_Z := λ z, Q2Qc (inject_Z z);
|}.
End Rat.

(** ** Vocabulary of the statements *)

(** The few equations on entries that the shape of [L] rests on; they hold
    of binary64 and of the rationals. *)
Class ScalarLaws (F : Type) `{Scalar F} : Prop := {
  add_zero_zero : fadd fzero fzero = fzero;
  add_zero_one : fadd fzero fone = fone;
  neq0_zero : fneq0 fzero = false;
}.

(** Entries that, once produced, are never repaired by the operations of
    the loops. For binary64 these are the infinities and the NaN. *)
Class Poison (F : Type) `{Scalar F} (bad : F → Prop) : Prop := {
  bad_div_zero : ∀ x z, fneq0 z = false → bad (fdiv x z);
  bad_sub_mul : ∀ x m y, bad m → bad (fsub x (fmul m y));
  bad_sub_l : ∀ x z, bad x → bad (fsub x z);
  bad_div_l : ∀ x p, bad x → bad (fdiv x p);
  bad_neq0 : ∀ x, bad x → fneq0 x = true;
  bad_add_zero : ∀ x, bad x → bad (fadd x fzero);
}.

(** Entries that form a field with a decidable zero test, such as the
    rationals. Binary64 is no instance; the class carries the algebra that
    a run without rounding inherits through the values of its entries. *)
Class ExactField (F : Type) `{Scalar F} := {
  fopp : F → F;
  finv : F → F;
  field_laws : field_theory fzero fone fadd fmul fsub fopp fdiv finv eq;
  neq0_spec : ∀ x, fneq0 x = false ↔ x = fzero;
}.

Section Vocabulary.
Context {F : Type} `{Scalar F}.
Implicit Types a b : ndarray F.
Implicit Types w : world F.

(** The world after the array at [l] has been replaced by [a]. *)
Definition set_array w (l : loc) a : world F :=
  World (<[l:=a]> (heap w)) (stdout w).

(** The invariant of the loops: the working copy keeps its shape. *)
Definition shaped (m n : nat) a : Prop :=
  wf a ∧ shape0 a = m ∧ shape1 a = n.

(** Every array of [w] is still there, unchanged, in [w']. *)
Definition extends w w' : Prop :=
  ∀ l x, heap w !! l = Some x → heap w' !! l = Some x.

(** The packed array [Ac] and the count at the end of the loops. *)
Definition packed a : ndarray F := (eliminate_v (shape0 a) (shape1 a) (a, 0)).1.
Definition count a : nat := (eliminate_v (shape0 a) (shape1 a) (a, 0)).2.

(** The array after row [j] has been treated against the pivot of
    column [i], when the entry under the pivot is nonzero. *)
Definition row_after (i j : nat) (b : ndarray F) (r c : nat) : F :=
  let multi := fdiv (item b j i) (item b i i) in
  if decide (r = j) then
    if decide (c = i) then multi
    else if decide (i < c) then fsub (item b j c) (fmul multi (item b i c))
    else item b j c
  else item b r c.

(** The number of operations counted for one row below the pivot of
    column [i] in an array with [n] columns. *)
Definition row_cost (n i : nat) : nat := 2 * (n - (i + 1)) + 1.

Definition unit_lower_triangular (n : nat) (l : ndarray F) : Prop :=
  shape0 l = n ∧ shape1 l = n
  ∧ (∀ i, i < n → item l i i = fone)
  ∧ (∀ i j, i < n → j < n → i < j → item l i j = fzero).

Definition upper_triangular (n : nat) (u : ndarray F) : Prop :=
  shape0 u = n ∧ shape1 u = n
  ∧ (∀ i j, i < n → j < n → j < i → item u i j = fzero).

(** Two results of [elim_gaussiana] that hold the same count and, in the
    store [w], arrays with the same contents. *)
Definition same_result w (r1 r2 : option (loc * loc * nat)) : Prop :=
  match r1, r2 with
  | None, None => True
  | Some (L1, U1, c1), Some (L2, U2, c2) =>
      c1 = c2
      ∧ (∃ l : ndarray F, heap w !! L1 = Some l ∧ heap w !! L2 = Some l)
      ∧ (∃ u : ndarray F, heap w !! U1 = Some u ∧ heap w !! U2 = Some u)
  | _, _ => False
  end.

(** The pairs (pivot column, row below it) in the order the loops visit
    them. *)
Definition step_pairs (n : nat) : list (nat * nat) :=
  flat_map (λ i, map (λ j, (i, j)) (range (i + 1) n)) (range 0 n).

(** The counting rule in words: nothing for a row whose entry under the
    pivot is zero, otherwise two per column from [i + 1] to [n - 1] and one
    more for the row. *)
Definition op_rule (n : nat) b (i j : nat) : nat :=
  if fneq0 (item b j i) then 2 * length (range (i + 1) n) + 1 else 0.

(** The rule summed along the run: each pair is charged on the working
    array as it is when the pair is reached. *)
Fixpoint rule_count (n : nat) (ps : list (nat * nat)) b : nat :=
  match ps with
  | [] => 0
  | (i, j) :: ps' =>
      op_rule n b i j + rule_count n ps' (eliminate_row_v i n (b, 0) j).1
  end.

(** A bad entry below the diagonal and a bad entry in the last column. *)
Definition poisoned (bad : F → Prop) (n : nat) b : Prop :=
  (∃ r c, c < r ∧ r < n ∧ bad (item b r c))
  ∧ (∃ r, r < n ∧ bad (item b r (n - 1))).

(** The part of the product already accounted for: [sum_{k < t}] of
    (multiplier in row [r]) × (entry of the finished row [k]). *)
Definition psum b (r c t : nat) : F :=
  sum_upto t (λ k, fmul (item b r k) (item b k c)).

Definition lu_bound (i r c : nat) : nat := i `min` (r `min` (c + 1)).

(** Entry [(r, c)] of the input [a], recovered from the working array [b]
    when row [r] has been treated against the pivots of the columns before
    [i]. *)
Definition cell_ok a b (i r c : nat) : Prop :=
  item a r c
  = fadd (psum b r c (lu_bound i r c))
         (if decide (i `min` r ≤ c) then item b r c else fzero).

(** The invariant between two columns ... *)
Definition col_inv a (n i : nat) b : Prop :=
  ∀ r c, r < n → c < n → cell_ok a b i r c.

(** ... and inside column [i], when the rows before [j] are done. *)
Definition stage_inv a (n i j : nat) b : Prop :=
  ∀ r c, r < n → c < n → cell_ok a b (if decide (r < j) then i + 1 else i) r c.
End Vocabulary.

(** [L @ U] equals the input, entry by entry, in the store the call of
    [elim_gaussiana] leaves. *)
Definition reconstructs {F} `{Scalar F} (w : world F) (A : loc) (a : ndarray F) : Prop :=
  ∃ L U c w' l u,
    elim_gaussiana A w = (Ok (Some (L, U, c)), w')
    ∧ heap w' !! L = Some l ∧ heap w' !! U = Some u
    ∧ same_entries (matmul l u) a.

(** ** Further vocabulary *)

Section FurtherVocabulary.
Context {F : Type} `{Scalar F}.
Implicit Types a b : ndarray F.

(** [sum_{e < d} e * (2 * e + 1)]: the operations counted on a [d]×[d]
    array none of whose rows is skipped. *)
Fixpoint dense_count (d : nat) : nat :=
  match d with
  | 0 => 0
  | S e => dense_count e + e * (2 * e + 1)
  end.

(** What the first column of the packed array holds in row [j], read off
    the input: the quotient by the first pivot, or the entry itself when it
    tests zero and the row is skipped. *)
Definition first_multiplier a (j : nat) : F :=
  if fneq0 (item a j 0) then fdiv (item a j 0) (item a 0 0) else item a j 0.

(** The check of line 59 of [main]:
    [np.allclose(np.linalg.norm(B - L@U, 1), 0)]. *)
Definition lu_check (B L U : loc) : M F bool :=
  P ←← np_matmul L U ;;
  D ←← np_sub B P ;;
  d ←← deref D ;;
  ret (allclose (norm_1 d) fzero).
End FurtherVocabulary.

(** ** Rounding *)

(** The rational a finite binary64 entry stands for,
    [(-1)^s * m * 2^e]; an infinity or a NaN stands for none. *)
Definition to_Q (x : spec_float) : option Q :=
  match x with
  | S754_zero _ => Some 0%Q
  | S754_finite s m e =>
      Some (Qmult (if s then Qopp 1%Q else 1%Q)
                  (Qmult (inject_Z (Zpos m)) (Qpower 2%Q e)))
  | S754_infinity _ | S754_nan => None
  end.

Definition to_Qc (x : spec_float) : option Qc := Q2Qc <$> to_Q x.

(** The rational matrix a binary64 array stands for. *)
Definition values (a : ndarray spec_float) : ndarray Qc :=
  tabulate (shape0 a) (shape1 a) (λ i j, default 0%Qc (to_Qc (item a i j))).

(** Every entry is finite. *)
Definition finite_array (a : ndarray spec_float) : bool :=
  forallb (λ i, forallb (λ j, B64.is_finite (item a i j)) (seq 0 (shape1 a)))
    (seq 0 (shape0 a)).

(** The binary64 operation [fop] applied to [x] and [y] gives exactly what
    the rational operation [qop] gives on their values: nothing is
    rounded, nothing overflows. *)
Definition exact2 (fop : spec_float → spec_float → spec_float)
    (qop : Qc → Qc → Qc) (x y : spec_float) : bool :=
  match to_Qc x, to_Qc y, to_Qc (fop x y) with
  | Some qx, Some qy, Some qr => Qc_eq_bool qr (qop qx qy)
  | _, _, _ => false
  end.

(** The operations of lines 23 and 26 for row [j] and pivot column [i], on
    the working array [b] as it is when the row is reached, are all exact.
    (Inside the row the cells read at column [k] are still those of
    [b].) *)
Definition exact_row_step (n : nat) (b : ndarray spec_float) (i j : nat) : bool :=
  if fneq0 (item b j i) then
    let multi := fdiv (item b j i) (item b i i) in
    exact2 fdiv Qcdiv (item b j i) (item b i i)
    && forallb (λ k,
         exact2 fmul Qcmult multi (item b i k)
         && exact2 fsub Qcminus (item b j k) (fmul multi (item b i k)))
       (range (i + 1) n)
  else true.

(** No operation of the elimination rounds. Like [pivots_ok], the check
    follows the loops. *)
Fixpoint unrounded_rows (i n : nat) (js : list nat)
    (s : ndarray spec_float * nat) : bool :=
  match js with
  | [] => true
  | j :: js' =>
      exact_row_step n s.1 i j && unrounded_rows i n js' (eliminate_row_v i n s j)
  end.

Fixpoint unrounded_cols (m n : nat) (cols : list nat)
    (s : ndarray spec_float * nat) : bool :=
  match cols with
  | [] => true
  | i :: cols' =>
      unrounded_rows i n (range (i + 1) m) s
      && unrounded_cols m n cols' (eliminate_col_v m n s i)
  end.

Definition unrounded (a : ndarray spec_float) : bool :=
  unrounded_cols (shape0 a) (shape1 a) (range 0 (shape1 a)) (a, 0).

(** The binary64 array [b] stands for the rational array [bq]. *)
Definition stands_for (n : nat) (b : ndarray spec_float) (bq : ndarray Qc) : Prop :=
  shaped n n b ∧ shaped n n bq
  ∧ ∀ r c, r < n → c < n → to_Qc (item b r c) = Some (item bq r c).

(** ** Concrete arrays *)

(** The binary64 array with the given integer entries. *)
Definition b64_array (m n : nat) (zs : list (list Z)) : ndarray spec_float :=
  NdArray m n (map (map B64.of_Z) zs).

(** A store holding one array, at location 0, and nothing printed yet. *)
Definition store_of {F} (a : ndarray F) : world F := World {[0 := a]} [].

Definition A49 : ndarray spec_float := b64_array 2 2 [[49; 0]; [1; 1]]%Z.
Definition A_zero_pivot : ndarray spec_float := b64_array 2 2 [[0; 1]; [1; 1]]%Z.
Definition A_3x4 : ndarray spec_float :=
  b64_array 3 4 [[1; 2; 3; 4]; [5; 6; 7; 8]; [9; 10; 11; 12]]%Z.
Definition A_upper : ndarray spec_float :=
  b64_array 3 3 [[2; 1; 5]; [0; 3; 7]; [0; 0; 4]]%Z.
Definition A_full : ndarray spec_float :=
  b64_array 3 3 [[2; 1; 1]; [4; 3; 3]; [8; 7; 9]]%Z.

(** The 7×7 array [main] builds: ones on the diagonal and in the last
    column, minus ones below the diagonal, zeros elsewhere. *)
Definition B7 : ndarray spec_float :=
  tabulate 7 7 (λ i j,
    if j =? 6 then B64.of_Z 1
    else if i =? j then B64.of_Z 1
    else if j <? i then B64.of_Z (-1)
    else B64.of_Z 0).

(** What [main] reports on it. *)
Definition main_report : report spec_float :=
  Report 3 7 8 203 true (B64.of_Z 64).

Definition A_1x1_zero : ndarray spec_float := b64_array 1 1 [[0]]%Z.

(** [[2^-70, 1], [1, 1]]. *)
Definition A_small_pivot : ndarray spec_float :=
  NdArray 2 2
    [[binary_normalize B64.prec B64.emax 1 (-70) false; B64.of_Z 1];
     [B64.of_Z 1; B64.of_Z 1]].

(** * Properties *)

(** ** Facts about array values *)

Section ArrayFacts.
Context {F : Type} `{Scalar F}.
Implicit Types a b : ndarray F.
Implicit Types f g : nat → nat → F.

Lemma wfb_wf a : wfb a = true → wf a.
Proof.
  unfold wfb, wf. rewrite andb_true_iff, Nat.eqb_eq, forallb_forall.
  intros [Hl Hr]. split; [done|].
  apply Forall_forall. intros r Hin. apply Nat.eqb_eq, Hr.
  by apply list_elem_of_In.
Qed.

Lemma lookup2_is_Some a i j :
  wf a → i < shape0 a → j < shape1 a → is_Some (lookup2 a i j).
Proof.
  intros [Hl Hr] Hi Hj. unfold lookup2.
  destruct (lookup_lt_is_Some_2 (rows a) i) as [r Hrow]; [lia|].
  rewrite Hrow. simpl. apply lookup_lt_is_Some_2.
  rewrite Forall_forall in Hr.
  rewrite (Hr r); [done|]. by eapply list_elem_of_lookup_2.
Qed.

Lemma lookup2_item a i j x : lookup2 a i j = Some x → item a i j = x.
Proof. unfold item. by intros ->. Qed.

Lemma lookup2_Some_item a i j :
  wf a → i < shape0 a → j < shape1 a → lookup2 a i j = Some (item a i j).
Proof.
  intros Hw Hi Hj. destruct (lookup2_is_Some a i j) as [x Hx]; try done.
  by rewrite (lookup2_item _ _ _ _ Hx).
Qed.

Lemma wf_store a i j v : wf a → wf (store a i j v).
Proof.
  intros [Hl Hr]. split; simpl.
  - by rewrite length_alter.
  - apply Forall_alter; [done|]. intros r Hrow Hlen.
    by rewrite length_insert.
Qed.

Lemma item_store_eq a i j v :
  wf a → i < shape0 a → j < shape1 a → item (store a i j v) i j = v.
Proof.
  intros Hw Hi Hj. unfold item, lookup2, store. simpl.
  destruct Hw as [Hl Hr].
  destruct (lookup_lt_is_Some_2 (rows a) i) as [r Hrow]; [lia|].
  rewrite list_lookup_alter_eq, Hrow. simpl.
  rewrite list_lookup_insert_eq; [done|].
  rewrite Forall_forall in Hr.
  rewrite (Hr r); [done|]. by eapply list_elem_of_lookup_2.
Qed.

Lemma item_store_ne a i j v i' j' :
  i ≠ i' ∨ j ≠ j' → item (store a i j v) i' j' = item a i' j'.
Proof.
  intros Hne. unfold item, lookup2, store. simpl.
  destruct (decide (i = i')) as [->|Hi].
  - rewrite list_lookup_alter_eq.
    destruct (rows a !! i') as [r|]; simpl; [|done].
    rewrite list_lookup_insert_ne; [done|]. by destruct Hne.
  - by rewrite list_lookup_alter_ne.
Qed.

Lemma wf_tabulate m n f : wf (tabulate m n f).
Proof.
  split; simpl.
  - by rewrite length_map, length_seq.
  - apply Forall_forall. intros r Hin.
    apply list_elem_of_In, in_map_iff in Hin as (i & <- & _).
    by rewrite length_map, length_seq.
Qed.

Lemma lookup2_tabulate m n f i j :
  i < m → j < n → lookup2 (tabulate m n f) i j = Some (f i j).
Proof.
  intros Hi Hj. unfold lookup2, tabulate. simpl.
  rewrite list_lookup_fmap, lookup_seq_lt; [|done]. simpl.
  rewrite list_lookup_fmap, lookup_seq_lt; done.
Qed.

Lemma item_tabulate m n f i j :
  i < m → j < n → item (tabulate m n f) i j = f i j.
Proof. intros. apply lookup2_item. by apply lookup2_tabulate. Qed.

(** Two arrays of one shape with the same entries are the same array. *)
Lemma tabulate_ext m n f g :
  (∀ i j, i < m → j < n → f i j = g i j) → tabulate m n f = tabulate m n g.
Proof.
  intros Hfg. unfold tabulate. f_equal.
  apply map_ext_in. intros i Hi%in_seq.
  apply map_ext_in. intros j Hj%in_seq. apply Hfg; lia.
Qed.

Lemma tabulate_item a :
  wf a → tabulate (shape0 a) (shape1 a) (item a) = a.
Proof.
  destruct a as [m n rs]. intros [Hl Hr]. simpl in *.
  unfold tabulate. f_equal.
  apply list_eq. intros i. rewrite list_lookup_fmap.
  destruct (decide (i < m)) as [Hi|Hi].
  - rewrite lookup_seq_lt by done. simpl.
    destruct (lookup_lt_is_Some_2 rs i) as [r Hrow]; [lia|].
    rewrite Hrow. f_equal.
    assert (length r = n) as Hlen.
    { rewrite Forall_forall in Hr. apply Hr. by eapply list_elem_of_lookup_2. }
    apply list_eq. intros j. rewrite list_lookup_fmap.
    destruct (decide (j < n)) as [Hj|Hj].
    + rewrite lookup_seq_lt by done. simpl.
      unfold item, lookup2. simpl. rewrite Hrow. simpl.
      destruct (lookup_lt_is_Some_2 r j) as [x Hx]; [lia|].
      by rewrite Hx.
    + rewrite lookup_seq_ge by lia. simpl.
      symmetry. apply lookup_ge_None. lia.
  - rewrite lookup_seq_ge by lia. simpl.
    symmetry. apply lookup_ge_None. lia.
Qed.

Lemma same_entries_eq a b : wf a → wf b → same_entries a b → a = b.
Proof.
  intros Ha Hb (H0 & H1 & Hij).
  rewrite <- (tabulate_item a Ha), <- (tabulate_item b Hb), <- H0, <- H1.
  by apply tabulate_ext.
Qed.
End ArrayFacts.

(** ** The program computes the folds *)

Section Refinement.
Context {F : Type} `{Scalar F}.
Implicit Types a b : ndarray F.
Implicit Types w : world F.

Lemma set_array_id w l a : heap w !! l = Some a → set_array w l a = w.
Proof. destruct w as [h o]. simpl. intros Hl. unfold set_array. simpl. by rewrite insert_id. Qed.

Lemma set_array_twice w l a b : set_array (set_array w l a) l b = set_array w l b.
Proof. unfold set_array. simpl. by rewrite insert_insert_eq. Qed.

Lemma heap_set_array w l a : heap (set_array w l a) !! l = Some a.
Proof. apply lookup_insert_eq. Qed.

Lemma heap_set_array_ne w l a l' : l ≠ l' → heap (set_array w l a) !! l' = heap w !! l'.
Proof. intros. by apply lookup_insert_ne. Qed.

Lemma getitem_ok w l a i j :
  heap w !! l = Some a → wf a → i < shape0 a → j < shape1 a →
  getitem l i j w = (Ok (item a i j), w).
Proof.
  intros Hl Hw Hi Hj. unfold getitem, bind, deref. rewrite Hl.
  by rewrite lookup2_Some_item.
Qed.

Lemma setitem_ok w l a i j v :
  heap w !! l = Some a → wf a → i < shape0 a → j < shape1 a →
  setitem l i j v w = (Ok tt, set_array w l (store a i j v)).
Proof.
  intros Hl Hw Hi Hj. unfold setitem, bind, deref. rewrite Hl.
  by rewrite lookup2_Some_item.
Qed.

(** A loop whose body changes only the array at [l] and the loop-carried
    variables is a fold, provided each iteration is one step of the fold
    and keeps the invariant [I]. *)
Lemma for_each_refines {S} (l : loc) (I : ndarray F → Prop) (xs : list nat)
    (body : nat → S → M F S) (f : ndarray F * S → nat → ndarray F * S) :
  (∀ x a s w, x ∈ xs → I a → heap w !! l = Some a →
     body x s w = (Ok (f (a, s) x).2, set_array w l (f (a, s) x).1)
     ∧ I (f (a, s) x).1) →
  ∀ a s w, I a → heap w !! l = Some a →
    for_each xs body s w
      = (Ok (foldl f (a, s) xs).2, set_array w l (foldl f (a, s) xs).1)
    ∧ I (foldl f (a, s) xs).1.
Proof.
  induction xs as [|x xs IH]; intros Hbody a s w Ha Hl; simpl.
  - unfold ret. by rewrite set_array_id.
  - destruct (Hbody x a s w) as [Hx Hinv]; [left|done|done|].
    unfold bind. rewrite Hx.
    destruct (f (a, s) x) as [a1 s1] eqn:Hf. simpl in *.
    destruct (IH (λ x' a' s' w' Hin, Hbody x' a' s' w' (list_elem_of_further _ _ _ Hin))
                a1 s1 (set_array w l a1) Hinv (heap_set_array _ _ _)) as [Hrest Hinv'].
    rewrite Hrest, set_array_twice. done.
Qed.

Lemma shaped_store m n a i j v : shaped m n a → shaped m n (store a i j v).
Proof. intros (Hw & H0 & H1). split; [by apply wf_store|done]. Qed.

Lemma elem_of_range x lo hi : x ∈ range lo hi ↔ lo ≤ x < hi.
Proof. unfold range. rewrite elem_of_seq. lia. Qed.

Lemma update_row_refines Ac i j m n multi a c w :
  shaped m n a → i < m → j < m → heap w !! Ac = Some a →
  update_row Ac i j n multi c w
    = (Ok (update_row_v i j n multi (a, c)).2,
       set_array w Ac (update_row_v i j n multi (a, c)).1)
  ∧ shaped m n (update_row_v i j n multi (a, c)).1.
Proof.
  intros Ha Hi Hj Hl. unfold update_row, update_row_v.
  apply (for_each_refines Ac (shaped m n)); [|done|done].
  clear a c w Ha Hl. intros k a c w Hk%elem_of_range (Hw & H0 & H1) Hl.
  split; [|by apply shaped_store].
  unfold bind.
  rewrite (getitem_ok w Ac a j k), (getitem_ok w Ac a i k) by (done || lia).
  rewrite (setitem_ok w Ac a j k) by (done || lia).
  done.
Qed.

Lemma eliminate_row_refines Ac i j m n a c w :
  shaped m n a → i < n → i < j → j < m → heap w !! Ac = Some a →
  eliminate_row Ac i n j c w
    = (Ok (eliminate_row_v i n (a, c) j).2,
       set_array w Ac (eliminate_row_v i n (a, c) j).1)
  ∧ shaped m n (eliminate_row_v i n (a, c) j).1.
Proof.
  intros Ha Hi Hij Hj Hl. pose proof Ha as (Hw & H0 & H1).
  unfold eliminate_row, eliminate_row_v, bind. simpl.
  rewrite (getitem_ok w Ac a j i) by (done || lia).
  destruct (fneq0 (item a j i)); simpl; [|by rewrite set_array_id].
  rewrite (getitem_ok w Ac a j i), (getitem_ok w Ac a i i) by (done || lia).
  destruct (update_row_refines Ac i j m n (fdiv (item a j i) (item a i i)) a c w)
    as [Hrow Hsh]; [done|lia|done|done|].
  rewrite Hrow.
  destruct (update_row_v i j n _ (a, c)) as [a1 c1]. simpl in *.
  destruct Hsh as (Hw1 & H01 & H11).
  rewrite (setitem_ok _ Ac a1 j i) by (apply heap_set_array || done || lia).
  rewrite set_array_twice. split; [done|]. by apply shaped_store.
Qed.

Lemma eliminate_col_refines Ac i m n a c w :
  shaped m n a → i < n → heap w !! Ac = Some a →
  for_each (range (i + 1) m) (eliminate_row Ac i n) c w
    = (Ok (eliminate_col_v m n (a, c) i).2,
       set_array w Ac (eliminate_col_v m n (a, c) i).1)
  ∧ shaped m n (eliminate_col_v m n (a, c) i).1.
Proof.
  intros Ha Hi Hl. unfold eliminate_col_v.
  apply (for_each_refines Ac (shaped m n)); [|done|done].
  intros j a' c' w' Hj%elem_of_range Ha' Hl'.
  apply eliminate_row_refines; (done || lia).
Qed.

Lemma eliminate_refines Ac m n a c w :
  shaped m n a → heap w !! Ac = Some a →
  eliminate Ac m n c w
    = (Ok (eliminate_v m n (a, c)).2, set_array w Ac (eliminate_v m n (a, c)).1)
  ∧ shaped m n (eliminate_v m n (a, c)).1.
Proof.
  intros Ha Hl. unfold eliminate, eliminate_v.
  apply (for_each_refines Ac (shaped m n)); [|done|done].
  intros i a' c' w' Hi%elem_of_range Ha' Hl'.
  apply eliminate_col_refines; (done || lia).
Qed.
End Refinement.

(** ** What a call of [elim_gaussiana] does *)

Section Run.
Context {F : Type} `{Scalar F}.
Implicit Types a b : ndarray F.
Implicit Types w : world F.

Lemma extends_set_array w l a : heap w !! l = None → extends w (set_array w l a).
Proof.
  intros Hl l' x Hl'. rewrite heap_set_array_ne; [done|]. congruence.
Qed.

(** Allocation picks a location that is not in use. *)
Lemma alloc_fresh w a :
  ∃ l, alloc a w = (Ok l, set_array w l a) ∧ heap w !! l = None.
Proof.
  exists (fresh (dom (heap w))). split; [done|].
  apply not_elem_of_dom, is_fresh.
Qed.

Lemma packed_shaped a : wf a → shaped (shape0 a) (shape1 a) (packed a).
Proof.
  intros Hw.
  destruct (eliminate_refines 0 (shape0 a) (shape1 a) a 0 (World {[0 := a]} []))
    as [_ Hsh]; [done|apply lookup_singleton_eq|done].
Qed.

Lemma bind_ok {X Y} (c : M F X) (k : X → M F Y) w x w' :
  c w = (Ok x, w') → bind c k w = k x w'.
Proof. unfold bind. by intros ->. Qed.

Lemma deref_ok w l a : heap w !! l = Some a → deref l w = (Ok a, w).
Proof. unfold deref. by intros ->. Qed.

Lemma shape_ok w l a :
  heap w !! l = Some a → shape l w = (Ok (shape0 a, shape1 a), w).
Proof. intros Hl. unfold shape. by rewrite (bind_ok _ _ _ _ _ (deref_ok _ _ _ Hl)). Qed.

Lemma np_copy_ok w l a : heap w !! l = Some a → np_copy l w = alloc a w.
Proof. intros Hl. unfold np_copy. by rewrite (bind_ok _ _ _ _ _ (deref_ok _ _ _ Hl)). Qed.

Lemma np_tril_ok w l a k :
  heap w !! l = Some a → np_tril l k w = alloc (tril a k) w.
Proof. intros Hl. unfold np_tril. by rewrite (bind_ok _ _ _ _ _ (deref_ok _ _ _ Hl)). Qed.

Lemma np_triu_ok w l a k :
  heap w !! l = Some a → np_triu l k w = alloc (triu a k) w.
Proof. intros Hl. unfold np_triu. by rewrite (bind_ok _ _ _ _ _ (deref_ok _ _ _ Hl)). Qed.

Lemma np_add_ok w l1 l2 a b :
  heap w !! l1 = Some a → heap w !! l2 = Some b →
  np_add l1 l2 w = alloc (arr_add a b) w.
Proof.
  intros H1 H2. unfold np_add.
  rewrite (bind_ok _ _ _ _ _ (deref_ok _ _ _ H1)).
  by rewrite (bind_ok _ _ _ _ _ (deref_ok _ _ _ H2)).
Qed.

Lemma elim_gaussiana_nonsquare w A a :
  heap w !! A = Some a → shape0 a ≠ shape1 a →
  ∃ Ac, heap w !! Ac = None ∧
    elim_gaussiana A w
      = (Ok None, World (<[Ac:=a]> (heap w)) (stdout w ++ ["Matriz no cuadrada"])).
Proof.
  intros Hl Hne.
  destruct (alloc_fresh w a) as (Ac & Halloc & Hfresh).
  exists Ac. split; [done|].
  unfold elim_gaussiana.
  rewrite (bind_ok _ _ _ _ _ (shape_ok _ _ _ Hl)). cbn [fst snd].
  rewrite <- (np_copy_ok _ _ _ Hl) in Halloc.
  rewrite (bind_ok _ _ _ _ _ Halloc).
  apply Nat.eqb_neq in Hne. rewrite Hne. done.
Qed.

Lemma elim_gaussiana_square w A a :
  heap w !! A = Some a → wf a → shape0 a = shape1 a →
  ∃ L U w',
    elim_gaussiana A w = (Ok (Some (L, U, count a)), w')
    ∧ heap w' !! L = Some (factor_L (packed a))
    ∧ heap w' !! U = Some (factor_U (packed a))
    ∧ heap w !! L = None ∧ heap w !! U = None ∧ L ≠ U
    ∧ extends w w' ∧ stdout w' = stdout w.
Proof.
  intros Hl Hw Hsq.
  destruct (alloc_fresh w a) as (Ac & Halloc & HAc).
  destruct (eliminate_refines Ac (shape0 a) (shape1 a) a 0 (set_array w Ac a))
    as [Hloops (Hwp & Hp0 & Hp1)]; [done|apply heap_set_array|].
  fold (packed a) in Hloops, Hwp, Hp0, Hp1. fold (count a) in Hloops.
  rewrite set_array_twice in Hloops.
  remember (set_array w Ac (packed a)) as w2 eqn:Hw2.
  destruct (alloc_fresh w2 (tril (packed a) (-1))) as (T & HallocT & HT).
  remember (set_array w2 T (tril (packed a) (-1))) as w3 eqn:Hw3.
  destruct (alloc_fresh w3 (eye (shape0 a))) as (E & HallocE & HE).
  remember (set_array w3 E (eye (shape0 a))) as w4 eqn:Hw4.
  destruct (alloc_fresh w4 (factor_L (packed a))) as (L & HallocL & HL).
  remember (set_array w4 L (factor_L (packed a))) as w5 eqn:Hw5.
  destruct (alloc_fresh w5 (factor_U (packed a))) as (U & HallocU & HU).
  remember (set_array w5 U (factor_U (packed a))) as w6 eqn:Hw6.
  assert (heap w2 !! Ac = Some (packed a)) as H2 by (subst w2; apply heap_set_array).
  assert (heap w3 !! T = Some (tril (packed a) (-1))) as H3 by (subst w3; apply heap_set_array).
  assert (heap w4 !! E = Some (eye (shape0 a))) as H4 by (subst w4; apply heap_set_array).
  assert (extends w2 w3) as E23 by (subst w3; by apply extends_set_array).
  assert (extends w3 w4) as E34 by (subst w4; by apply extends_set_array).
  assert (extends w4 w5) as E45 by (subst w5; by apply extends_set_array).
  assert (extends w5 w6) as E56 by (subst w6; by apply extends_set_array).
  assert (∀ l, l ≠ Ac → heap w2 !! l = heap w !! l) as Hold.
  { intros l Hne. subst w2. by apply heap_set_array_ne. }
  exists L, U, w6. split; [|split; [|split; [|split; [|split; [|split; [|split]]]]]].
  - unfold elim_gaussiana.
    rewrite (bind_ok _ _ _ _ _ (shape_ok _ _ _ Hl)). cbn [fst snd].
    rewrite <- (np_copy_ok _ _ _ Hl) in Halloc.
    rewrite (bind_ok _ _ _ _ _ Halloc).
    apply Nat.eqb_eq in Hsq. rewrite Hsq. cbn [negb].
    rewrite (bind_ok _ _ _ _ _ Hloops).
    rewrite <- (np_tril_ok _ _ _ _ H2) in HallocT.
    rewrite (bind_ok _ _ _ _ _ HallocT).
    rewrite (bind_ok (np_eye (shape0 a)) _ _ _ _ HallocE).
    unfold factor_L in HallocL. rewrite Hp0 in HallocL.
    rewrite <- (np_add_ok _ _ _ _ _ (E34 _ _ H3) H4) in HallocL.
    rewrite (bind_ok _ _ _ _ _ HallocL).
    unfold factor_U in HallocU.
    rewrite <- (np_triu_ok _ _ _ _ (E45 _ _ (E34 _ _ (E23 _ _ H2)))) in HallocU.
    rewrite (bind_ok _ _ _ _ _ HallocU). done.
  - subst w6 w5. apply extends_set_array; [done|]. apply heap_set_array.
  - subst w6. apply heap_set_array.
  - destruct (decide (L = Ac)) as [->|Hne].
    + pose proof (E34 _ _ (E23 _ _ H2)). congruence.
    + rewrite <- Hold by done.
      destruct (heap w2 !! L) as [x|] eqn:Hx; [|done].
      pose proof (E34 _ _ (E23 _ _ Hx)). congruence.
  - destruct (decide (U = Ac)) as [->|Hne].
    + pose proof (E45 _ _ (E34 _ _ (E23 _ _ H2))). congruence.
    + rewrite <- Hold by done.
      destruct (heap w2 !! U) as [x|] eqn:Hx; [|done].
      pose proof (E45 _ _ (E34 _ _ (E23 _ _ Hx))). congruence.
  - intros ->. subst w5. rewrite heap_set_array in HU. done.
  - intros l x Hx. apply E56, E45, E34, E23.
    rewrite Hold; [done|]. congruence.
  - by subst.
Qed.
End Run.

(** ** One row step, cell by cell *)

Section Steps.
Context {F : Type} `{Scalar F}.
Implicit Types a b : ndarray F.

(** The inner loop over the columns [lo, lo + len). *)
Lemma update_cells_spec m n i j multi b cnt lo len :
  shaped m n b → i ≠ j → j < m → lo + len ≤ n →
  let s' := foldl (update_cell i j multi) (b, cnt) (seq lo len) in
  shaped m n s'.1 ∧ s'.2 = cnt + 2 * len ∧
  ∀ r c, item s'.1 r c =
    if decide (r = j ∧ lo ≤ c < lo + len)
    then fsub (item b j c) (fmul multi (item b i c))
    else item b r c.
Proof.
  intros Hb Hij Hj. induction len as [|len IH]; intros Hlen; cbv zeta.
  - simpl. split; [done|]. split; [lia|]. intros r c.
    case_decide; [lia|done].
  - rewrite seq_S, foldl_app. cbn [foldl].
    destruct IH as (Hs & Hc & Hcells); [lia|].
    set (s := foldl (update_cell i j multi) (b, cnt) (seq lo len)) in *.
    split; [by apply shaped_store|]. split; [simpl; lia|].
    intros r c. destruct Hs as (Hw & H0 & H1). simpl.
    destruct (decide (r = j ∧ c = lo + len)) as [[-> ->]|Hne].
    + rewrite item_store_eq by (done || lia).
      rewrite !Hcells.
      rewrite decide_False by lia. rewrite decide_False by lia.
      rewrite decide_True by lia. done.
    + rewrite item_store_ne by (destruct (decide (j = r)); [right; naive_solver|by left]).
      rewrite Hcells. repeat case_decide; (done || lia).
Qed.

Lemma update_row_v_spec m n i j multi b cnt :
  shaped m n b → i ≠ j → j < m →
  let s' := update_row_v i j n multi (b, cnt) in
  shaped m n s'.1 ∧ s'.2 = cnt + 2 * (n - (i + 1)) ∧
  ∀ r c, c < n → item s'.1 r c =
    if decide (r = j ∧ i < c)
    then fsub (item b j c) (fmul multi (item b i c))
    else item b r c.
Proof.
  intros Hb Hij Hj. unfold update_row_v, range.
  destruct (decide (i + 1 ≤ n)) as [Hin|Hin].
  - destruct (update_cells_spec m n i j multi b cnt (i + 1) (n - (i + 1)))
      as (Hs & Hc & Hcells); [done|done|done|lia|].
    split; [done|]. split; [done|]. intros r c Hcn. rewrite Hcells.
    repeat case_decide; (done || lia).
  - replace (n - (i + 1)) with 0 by lia. simpl.
    split; [done|]. split; [lia|]. intros r c Hcn.
    case_decide; [lia|done].
Qed.

Lemma eliminate_row_v_skip i n b cnt j :
  fneq0 (item b j i) = false → eliminate_row_v i n (b, cnt) j = (b, cnt).
Proof. unfold eliminate_row_v. simpl. by intros ->. Qed.

Lemma eliminate_row_v_spec m n i j b cnt :
  shaped m n b → i < n → i < j → j < m →
  fneq0 (item b j i) = true →
  let s' := eliminate_row_v i n (b, cnt) j in
  shaped m n s'.1 ∧ s'.2 = cnt + row_cost n i ∧
  ∀ r c, c < n → item s'.1 r c = row_after i j b r c.
Proof.
  intros Hb Hi Hij Hj Hnz. unfold eliminate_row_v. simpl. rewrite Hnz.
  destruct (update_row_v_spec m n i j (fdiv (item b j i) (item b i i)) b cnt)
    as (Hs & Hc & Hcells); [done|lia|done|].
  set (s := update_row_v i j n _ (b, cnt)) in *. simpl.
  split; [by apply shaped_store|]. split; [rewrite Hc; unfold row_cost; lia|].
  intros r c Hcn. unfold row_after. destruct Hs as (Hw & H0 & H1).
  destruct (decide (r = j ∧ c = i)) as [[-> ->]|Hne].
  - rewrite item_store_eq by (done || lia).
    rewrite decide_True by done. rewrite decide_True by done. done.
  - rewrite item_store_ne by (destruct (decide (j = r)); [right; naive_solver|by left]).
    rewrite Hcells by done. clearbody s.
    repeat case_decide; subst; (done || lia).
Qed.

Lemma eliminate_row_v_shaped m n i j s :
  shaped m n s.1 → i < n → i < j → j < m →
  shaped m n (eliminate_row_v i n s j).1.
Proof.
  destruct s as [b cnt]. simpl. intros Hb Hi Hij Hj.
  destruct (fneq0 (item b j i)) eqn:Hnz.
  - by apply (eliminate_row_v_spec m n i j b cnt).
  - by rewrite eliminate_row_v_skip.
Qed.

(** A row step leaves every other row alone, and in its own row the
    columns to the left of the pivot. *)
Lemma eliminate_row_v_frame m n i j s r c :
  shaped m n s.1 → i < n → i < j → j < m → c < n →
  r ≠ j ∨ c < i →
  item (eliminate_row_v i n s j).1 r c = item s.1 r c.
Proof.
  destruct s as [b cnt]. simpl. intros Hb Hi Hij Hj Hc Hrc.
  destruct (fneq0 (item b j i)) eqn:Hnz.
  - destruct (eliminate_row_v_spec m n i j b cnt) as (_ & _ & Hcells); try done.
    rewrite Hcells by done. unfold row_after.
    repeat case_decide; subst; (done || lia).
  - by rewrite eliminate_row_v_skip.
Qed.

(** The array a row step produces does not depend on the count. *)
Lemma eliminate_row_v_array i n b cnt cnt' j :
  (eliminate_row_v i n (b, cnt) j).1 = (eliminate_row_v i n (b, cnt') j).1.
Proof.
  unfold eliminate_row_v. simpl. destruct (fneq0 (item b j i)); [|done]. simpl.
  f_equal. unfold update_row_v.
  generalize (fdiv (item b j i) (item b i i)) as multi.
  generalize (range (i + 1) n) as ks. intros ks multi.
  assert (∀ s s' : ndarray F * nat, s.1 = s'.1 →
    (foldl (update_cell i j multi) s ks).1
    = (foldl (update_cell i j multi) s' ks).1) as Hfold.
  { induction ks as [|k ks IH]; intros s s' Heq; simpl; [done|].
    apply IH. unfold update_cell. simpl. by rewrite Heq. }
  by apply Hfold.
Qed.
End Steps.

(** ** Shape of the factors, the shape check, the caller's array *)

Section Shape.
Context {F : Type} `{Scalar F}.
Implicit Types a b l u : ndarray F.
Implicit Types w : world F.

Lemma item_factor_L n b i j :
  shape0 b = n → shape1 b = n → i < n → j < n →
  item (factor_L b) i j
  = fadd (if decide (j < i) then item b i j else fzero)
         (if decide (i = j) then fone else fzero).
Proof.
  intros H0 H1 Hi Hj. unfold factor_L, arr_add, tril, eye. cbn [shape0 shape1 tabulate].
  rewrite H0, H1.
  rewrite !item_tabulate by done.
  f_equal.
  - destruct (Z.leb_spec (Z.of_nat j) (Z.of_nat i + -1)); case_decide; (done || lia).
  - destruct (Nat.eqb_spec i j); case_decide; (done || lia).
Qed.

Lemma item_factor_U n b i j :
  shape0 b = n → shape1 b = n → i < n → j < n →
  item (factor_U b) i j = if decide (i ≤ j) then item b i j else fzero.
Proof.
  intros H0 H1 Hi Hj. unfold factor_U, triu. rewrite H0, H1.
  rewrite item_tabulate by done.
  destruct (Z.leb_spec (Z.of_nat i + 0) (Z.of_nat j)); case_decide; (done || lia).
Qed.

Lemma factor_L_unit_lower `{!ScalarLaws F} n b :
  shape0 b = n → shape1 b = n → unit_lower_triangular n (factor_L b).
Proof.
  intros H0 H1. split; [done|]. split; [by simpl|]. split.
  - intros i Hi. rewrite (item_factor_L n) by done.
    rewrite decide_False by lia. rewrite decide_True by done.
    apply add_zero_one.
  - intros i j Hi Hj Hij. rewrite (item_factor_L n) by done.
    rewrite decide_False by lia. rewrite decide_False by lia.
    apply add_zero_zero.
Qed.

Lemma factor_U_upper n b :
  shape0 b = n → shape1 b = n → upper_triangular n (factor_U b).
Proof.
  intros H0 H1. split; [done|]. split; [done|].
  intros i j Hi Hj Hij. rewrite (item_factor_U n) by done.
  by rewrite decide_False by lia.
Qed.

(** C2. For every square input, the [L] that [elim_gaussiana] returns has
    ones on its diagonal and zeros above it, and the [U] it returns has
    zeros below its diagonal. *)
Theorem elim_gaussiana_triangular `{!ScalarLaws F} w A a :
  heap w !! A = Some a → wf a → shape0 a = shape1 a →
  ∃ L U c w' l u,
    elim_gaussiana A w = (Ok (Some (L, U, c)), w')
    ∧ heap w' !! L = Some l ∧ heap w' !! U = Some u
    ∧ unit_lower_triangular (shape0 a) l
    ∧ upper_triangular (shape0 a) u.
Proof.
  intros Hl Hw Hsq.
  destruct (elim_gaussiana_square w A a Hl Hw Hsq)
    as (L & U & w' & Hrun & HL & HU & _).
  destruct (packed_shaped a Hw) as (_ & H0 & H1). rewrite <- Hsq in H1.
  exists L, U, (count a), w', (factor_L (packed a)), (factor_U (packed a)).
  split; [done|]. split; [done|]. split; [done|]. split.
  - by apply factor_L_unit_lower.
  - by apply factor_U_upper.
Qed.

(** C3. For every input whose row count differs from its column count,
    [elim_gaussiana] prints the message "Matriz no cuadrada" and returns
    [None]: no [L], no [U], no count. The only array it has created is the
    copy made at entry. *)
Theorem elim_gaussiana_rejects_nonsquare w A a :
  heap w !! A = Some a → shape0 a ≠ shape1 a →
  ∃ Ac w',
    elim_gaussiana A w = (Ok None, w')
    ∧ stdout w' = stdout w ++ ["Matriz no cuadrada"]
    ∧ heap w !! Ac = None
    ∧ heap w' = <[Ac:=a]> (heap w).
Proof.
  intros Hl Hne.
  destruct (elim_gaussiana_nonsquare w A a Hl Hne) as (Ac & HAc & Hrun).
  eexists Ac, _. split; [exact Hrun|done].
Qed.

(** What a call does, whatever the shape: it returns without raising, and
    every array of the store it started from is unchanged. *)
Lemma elim_gaussiana_returns w A a :
  heap w !! A = Some a → wf a →
  ∃ r w', elim_gaussiana A w = (Ok r, w') ∧ extends w w'
    ∧ (shape0 a ≠ shape1 a → r = None)
    ∧ (shape0 a = shape1 a → ∃ L U,
         r = Some (L, U, count a)
         ∧ heap w' !! L = Some (factor_L (packed a))
         ∧ heap w' !! U = Some (factor_U (packed a))).
Proof.
  intros Hl Hw. destruct (decide (shape0 a = shape1 a)) as [Hsq|Hne].
  - destruct (elim_gaussiana_square w A a Hl Hw Hsq)
      as (L & U & w' & Hrun & HL & HU & _ & _ & _ & Hext & _).
    exists (Some (L, U, count a)), w'. split; [done|]. split; [done|].
    split; [done|]. intros _. by exists L, U.
  - destruct (elim_gaussiana_nonsquare w A a Hl Hne) as (Ac & HAc & Hrun).
    eexists None, _. split; [exact Hrun|]. split.
    + by apply (extends_set_array w Ac a).
    + split; [done|]. intros Hsq. by destruct Hne.
Qed.

(** C4. Whatever the shape of the input, the array the caller passed is
    the same after the call as before it, and so is every other array the
    caller holds: the writes go to the copy made at entry. *)
Theorem elim_gaussiana_preserves_input w A a :
  heap w !! A = Some a → wf a →
  ∃ r w', elim_gaussiana A w = (Ok r, w')
          ∧ heap w' !! A = Some a
          ∧ ∀ (B : loc) b, heap w !! B = Some b → heap w' !! B = Some b.
Proof.
  intros Hl Hw.
  destruct (elim_gaussiana_returns w A a Hl Hw) as (r & w' & Hrun & Hext & _).
  exists r, w'. split; [done|]. split; [by apply Hext|done].
Qed.

(** C6. Running [elim_gaussiana] twice on the same input, the second call
    starting from the store the first one left, gives the same count and
    factors with the same contents (or twice no result). *)
Theorem elim_gaussiana_deterministic w A a :
  heap w !! A = Some a → wf a →
  ∃ r1 w1 r2 w2,
    elim_gaussiana A w = (Ok r1, w1)
    ∧ elim_gaussiana A w1 = (Ok r2, w2)
    ∧ same_result w2 r1 r2.
Proof.
  intros Hl Hw.
  destruct (elim_gaussiana_returns w A a Hl Hw)
    as (r1 & w1 & Hrun1 & Hext1 & Hns1 & Hsq1).
  destruct (elim_gaussiana_returns w1 A a (Hext1 _ _ Hl) Hw)
    as (r2 & w2 & Hrun2 & Hext2 & Hns2 & Hsq2).
  exists r1, w1, r2, w2. split; [done|]. split; [done|].
  destruct (decide (shape0 a = shape1 a)) as [Hsq|Hne].
  - destruct (Hsq1 Hsq) as (L1 & U1 & -> & HL1 & HU1).
    destruct (Hsq2 Hsq) as (L2 & U2 & -> & HL2 & HU2).
    simpl. split; [done|]. split; eexists; split; (done || by apply Hext2).
  - by rewrite (Hns1 Hne), (Hns2 Hne).
Qed.

(** C10. The call returns for every input array, whatever its shape and
    its entries: no result when the array is not square, and a triple
    [(L, U, cant_op)] when it is. *)
Theorem elim_gaussiana_total w A a :
  heap w !! A = Some a → wf a →
  ∃ r w', elim_gaussiana A w = (Ok r, w')
    ∧ (shape0 a ≠ shape1 a → r = None)
    ∧ (shape0 a = shape1 a → ∃ L U c, r = Some (L, U, c)).
Proof.
  intros Hl Hw.
  destruct (elim_gaussiana_returns w A a Hl Hw) as (r & w' & Hrun & _ & Hns & Hsq).
  exists r, w'. split; [done|]. split; [done|].
  intros Heq. destruct (Hsq Heq) as (L & U & -> & _). by exists L, U, (count a).
Qed.
End Shape.

(** ** Already triangular inputs and the operation count *)

Section Counting.
Context {F : Type} `{Scalar F}.
Implicit Types a b : ndarray F.
Implicit Types w : world F.

Lemma foldl_fixed {S X} (f : S → X → S) (s : S) (xs : list X) :
  (∀ x, x ∈ xs → f s x = s) → foldl f s xs = s.
Proof.
  induction xs as [|x xs IH]; intros Hfix; simpl; [done|].
  rewrite Hfix by left. apply IH. intros y Hy. apply Hfix. by right.
Qed.

Lemma foldl_flat_map {S X Y} (f : S → Y → S) (g : X → list Y) (s : S) (xs : list X) :
  foldl f s (flat_map g xs) = foldl (λ s x, foldl f s (g x)) s xs.
Proof.
  revert s. induction xs as [|x xs IH]; intros s; simpl; [done|].
  by rewrite foldl_app, IH.
Qed.

Lemma foldl_map {S X Y} (f : S → Y → S) (g : X → Y) (s : S) (xs : list X) :
  foldl f s (map g xs) = foldl (λ s x, f s (g x)) s xs.
Proof. revert s. induction xs as [|x xs IH]; intros s; simpl; [done|]. apply IH. Qed.

(** The nested loops visit [step_pairs] from left to right. *)
Lemma eliminate_v_pairs n s :
  eliminate_v n n s = foldl (λ s p, eliminate_row_v p.1 n s p.2) s (step_pairs n).
Proof.
  unfold eliminate_v, step_pairs. rewrite foldl_flat_map.
  generalize (range 0 n). intros cols. revert s.
  induction cols as [|i cols IH]; intros s; simpl; [done|].
  rewrite IH. unfold eliminate_col_v at 1. by rewrite foldl_map.
Qed.

Lemma update_cells_count i j multi (s : ndarray F * nat) ks :
  (foldl (update_cell i j multi) s ks).2 = s.2 + 2 * length ks.
Proof.
  revert s. induction ks as [|k ks IH]; intros s; simpl; [lia|].
  rewrite IH. simpl. lia.
Qed.

Lemma eliminate_row_v_count i n b cnt j :
  (eliminate_row_v i n (b, cnt) j).2 = cnt + op_rule n b i j.
Proof.
  unfold eliminate_row_v, op_rule. simpl.
  destruct (fneq0 (item b j i)); simpl; [|lia].
  unfold update_row_v. rewrite update_cells_count. simpl. lia.
Qed.

Lemma pairs_count n ps b cnt :
  (foldl (λ s p, eliminate_row_v p.1 n s p.2) (b, cnt) ps).2
  = cnt + rule_count n ps b.
Proof.
  revert b cnt. induction ps as [|[i j] ps IH]; intros b cnt; simpl; [lia|].
  destruct (eliminate_row_v i n (b, cnt) j) as [b' cnt'] eqn:Hstep.
  rewrite IH.
  assert (cnt' = cnt + op_rule n b i j) as ->.
  { by rewrite <- eliminate_row_v_count, Hstep. }
  assert ((eliminate_row_v i n (b, 0) j).1 = b') as ->.
  { by rewrite (eliminate_row_v_array i n b 0 cnt j), Hstep. }
  lia.
Qed.

(** A row whose entry under the pivot is zero costs nothing: the program
    reads that entry and goes on, the store and the count are as before. *)
Lemma eliminate_row_skips Ac i n j b cnt w :
  heap w !! Ac = Some b → wf b → j < shape0 b → i < shape1 b →
  fneq0 (item b j i) = false →
  eliminate_row Ac i n j cnt w = (Ok cnt, w).
Proof.
  intros Hl Hw Hj Hi Hz. unfold eliminate_row.
  rewrite (bind_ok _ _ _ _ _ (getitem_ok w Ac b j i Hl Hw Hj Hi)).
  by rewrite Hz.
Qed.

(** C5. For a square input the count returned is the rule summed over
    the pairs (pivot column [i], row [j] below it) in loop order; and a row
    whose working entry [Ac[j][i]] is zero is skipped, leaving array and
    count untouched. *)
Theorem elim_gaussiana_op_count w A a :
  heap w !! A = Some a → wf a → shape0 a = shape1 a →
  (∃ L U c w',
     elim_gaussiana A w = (Ok (Some (L, U, c)), w')
     ∧ c = rule_count (shape0 a) (step_pairs (shape0 a)) a)
  ∧ (∀ Ac i j b cnt w1,
       heap w1 !! Ac = Some b → wf b → j < shape0 b → i < shape1 b →
       fneq0 (item b j i) = false →
       eliminate_row Ac i (shape0 a) j cnt w1 = (Ok cnt, w1)).
Proof.
  intros Hl Hw Hsq. split.
  - destruct (elim_gaussiana_square w A a Hl Hw Hsq) as (L & U & w' & Hrun & _).
    exists L, U, (count a), w'. split; [done|].
    unfold count. rewrite <- Hsq, eliminate_v_pairs, pairs_count. lia.
  - intros Ac i j b cnt w1. apply eliminate_row_skips.
Qed.

Lemma eliminate_v_upper n a cnt :
  (∀ i j, i < n → j < i → fneq0 (item a i j) = false) →
  eliminate_v n n (a, cnt) = (a, cnt).
Proof.
  intros Hup. unfold eliminate_v.
  apply foldl_fixed. intros i Hi%elem_of_range.
  unfold eliminate_col_v.
  apply foldl_fixed. intros j Hj%elem_of_range.
  apply eliminate_row_v_skip. apply Hup; lia.
Qed.

(** C9. When every entry below the diagonal of a square input is zero,
    no row is eliminated: the working copy is never written, [L] is the
    identity, [U] is the input and the count is 0. *)
Theorem elim_gaussiana_upper_triangular `{!ScalarLaws F} w A a :
  heap w !! A = Some a → wf a → shape0 a = shape1 a →
  (∀ i j, i < shape0 a → j < i → item a i j = fzero) →
  packed a = a
  ∧ ∃ L U w',
      elim_gaussiana A w = (Ok (Some (L, U, 0)), w')
      ∧ heap w' !! L = Some (eye (shape0 a))
      ∧ heap w' !! U = Some a.
Proof.
  intros Hl Hw Hsq Hup.
  assert (eliminate_v (shape0 a) (shape1 a) (a, 0) = (a, 0)) as Hfix.
  { rewrite <- Hsq. apply eliminate_v_upper.
    intros i j Hi Hj. rewrite Hup by done. apply neq0_zero. }
  assert (packed a = a) as Hp by (unfold packed; by rewrite Hfix).
  assert (count a = 0) as Hc by (unfold count; by rewrite Hfix).
  split; [done|].
  destruct (elim_gaussiana_square w A a Hl Hw Hsq)
    as (L & U & w' & Hrun & HL & HU & _).
  rewrite Hp in HL, HU. rewrite Hc in Hrun.
  exists L, U, w'. split; [done|]. split.
  - rewrite HL. f_equal. apply same_entries_eq.
    + apply wf_tabulate.
    + apply wf_tabulate.
    + split; [done|]. split; [by simpl|].
      intros i j Hi Hj. simpl in Hi, Hj. rewrite <- Hsq in Hj.
      rewrite (item_factor_L (shape0 a)) by done.
      unfold eye. rewrite item_tabulate by done.
      destruct (Nat.eqb_spec i j) as [->|Hij].
      * rewrite decide_False by lia. rewrite decide_True by done. apply add_zero_one.
      * rewrite (decide_False (P := i = j)) by done.
        case_decide; [rewrite Hup by done|]; apply add_zero_zero.
  - rewrite HU. f_equal. apply same_entries_eq; [apply wf_tabulate|done|].
    split; [done|]. split; [done|].
    intros i j Hi Hj. simpl in Hi, Hj.
    rewrite (item_factor_U (shape0 a)) by (done || lia).
    case_decide; [done|]. symmetry. apply Hup; lia.
Qed.
End Counting.

(** ** Division by a zero pivot *)

Section ZeroPivot.
Context {F : Type} `{Scalar F} (bad : F → Prop) `{!Poison F bad}.
Implicit Types a b : ndarray F.

Lemma step_sticky n i j b cnt r c :
  shaped n n b → i < j → j < n → r < n → c < n →
  bad (item b r c) → bad (item (eliminate_row_v i n (b, cnt) j).1 r c).
Proof.
  intros Hb Hij Hj Hr Hc Hbad.
  destruct (fneq0 (item b j i)) eqn:Hnz.
  - destruct (eliminate_row_v_spec n n i j b cnt) as (_ & _ & Hcells);
      [done|lia|done|done|done|].
    rewrite Hcells by done. unfold row_after.
    repeat case_decide; subst; try done.
    + by apply bad_div_l.
    + by apply bad_sub_l.
  - by rewrite eliminate_row_v_skip.
Qed.

Lemma step_fault n i j b cnt :
  shaped n n b → i < j → j < n → pivot_ok b i j = false →
  bad (item (eliminate_row_v i n (b, cnt) j).1 j i)
  ∧ bad (item (eliminate_row_v i n (b, cnt) j).1 j (n - 1)).
Proof.
  intros Hb Hij Hj Hpiv. unfold pivot_ok in Hpiv.
  destruct (fneq0 (item b j i)) eqn:Hnz; [|done].
  destruct (fneq0 (item b i i)) eqn:Hz; [done|].
  destruct (eliminate_row_v_spec n n i j b cnt) as (_ & _ & Hcells);
    [done|lia|done|done|done|].
  rewrite !Hcells by lia. unfold row_after.
  rewrite !(decide_True (P := j = j)) by done.
  rewrite (decide_True (P := i = i)) by done.
  rewrite (decide_False (P := n - 1 = i)) by lia.
  rewrite (decide_True (P := i < n - 1)) by lia.
  split.
  - by apply bad_div_zero.
  - apply bad_sub_mul. by apply bad_div_zero.
Qed.

Lemma poisoned_step n i j s :
  shaped n n s.1 → i < j → j < n →
  poisoned bad n s.1 ∨ pivot_ok s.1 i j = false →
  poisoned bad n (eliminate_row_v i n s j).1.
Proof.
  destruct s as [b cnt]. simpl. intros Hb Hij Hj [Hp|Hfault].
  - destruct Hp as [(r & c & Hcr & Hr & Hbad) (r' & Hr' & Hbad')]. split.
    + exists r, c. split; [done|]. split; [done|].
      apply step_sticky; (done || lia).
    + exists r'. split; [done|]. apply step_sticky; (done || lia).
  - destruct (step_fault n i j b cnt Hb Hij Hj Hfault) as [HL HU]. split.
    + by exists j, i.
    + by exists j.
Qed.

Lemma poisoned_rows n i js s :
  (∀ j, j ∈ js → i < j ∧ j < n) → shaped n n s.1 →
  poisoned bad n s.1 ∨ pivots_ok_rows i n js s = false →
  poisoned bad n (foldl (eliminate_row_v i n) s js).1.
Proof.
  revert s. induction js as [|j js IH]; intros s Hjs Hs Hcase; simpl in *.
  - by destruct Hcase.
  - destruct (Hjs j) as [Hij Hj]; [left|].
    apply IH.
    + intros j' Hj'. apply Hjs. by right.
    + apply eliminate_row_v_shaped; (done || lia).
    + destruct Hcase as [Hp|Hfalse].
      * left. apply poisoned_step; auto.
      * apply andb_false_iff in Hfalse as [Hfault|Hrest]; [|by right].
        left. apply poisoned_step; auto.
Qed.

Lemma eliminate_col_v_shaped n i s :
  shaped n n s.1 → i < n → shaped n n (eliminate_col_v n n s i).1.
Proof.
  intros Hs Hi. unfold eliminate_col_v.
  assert (∀ j, j ∈ range (i + 1) n → i < j ∧ j < n) as Hjs.
  { intros j Hj%elem_of_range. lia. }
  revert s Hs Hjs. generalize (range (i + 1) n). intros js.
  induction js as [|j js IH]; intros s Hs Hjs; simpl; [done|].
  destruct (Hjs j) as [Hij Hj]; [left|].
  apply IH.
  - apply eliminate_row_v_shaped; (done || lia).
  - intros j' Hj'. apply Hjs. by right.
Qed.

Lemma poisoned_cols n cols s :
  (∀ i, i ∈ cols → i < n) → shaped n n s.1 →
  poisoned bad n s.1 ∨ pivots_ok_cols n n cols s = false →
  poisoned bad n (foldl (eliminate_col_v n n) s cols).1.
Proof.
  revert s. induction cols as [|i cols IH]; intros s Hcols Hs Hcase; simpl in *.
  - by destruct Hcase.
  - assert (i < n) as Hi by (apply Hcols; left).
    assert (∀ j, j ∈ range (i + 1) n → i < j ∧ j < n) as Hjs.
    { intros j Hj%elem_of_range. lia. }
    apply IH.
    + intros i' Hi'. apply Hcols. by right.
    + by apply eliminate_col_v_shaped.
    + destruct Hcase as [Hp|Hfalse].
      * left. apply poisoned_rows; auto.
      * apply andb_false_iff in Hfalse as [Hfault|Hrest]; [|by right].
        left. apply poisoned_rows; auto.
Qed.

(** When a zero pivot is divided by, the packed array ends with a bad
    multiplier below its diagonal and a bad entry in its last column. *)
Lemma zero_pivot_packed a :
  wf a → shape0 a = shape1 a → pivots_ok a = false →
  poisoned bad (shape0 a) (packed a).
Proof.
  intros Hw Hsq Hpiv. unfold packed, pivots_ok in *. rewrite <- Hsq in *.
  apply poisoned_cols; [|done|by right].
  intros i Hi%elem_of_range. lia.
Qed.

Lemma zero_pivot_factors a :
  wf a → shape0 a = shape1 a → pivots_ok a = false →
  (∃ i j, j < i ∧ i < shape0 a ∧ bad (item (factor_L (packed a)) i j))
  ∧ (∃ i j, i ≤ j ∧ j < shape0 a ∧ bad (item (factor_U (packed a)) i j)).
Proof.
  intros Hw Hsq Hpiv.
  destruct (zero_pivot_packed a Hw Hsq Hpiv)
    as [(r & c & Hcr & Hr & Hbad) (r' & Hr' & Hbad')].
  destruct (packed_shaped a Hw) as (_ & H0 & H1). rewrite <- Hsq in H1.
  split.
  - exists r, c. split; [done|]. split; [done|].
    rewrite (item_factor_L (shape0 a)) by (done || lia).
    rewrite decide_True by done. rewrite decide_False by lia.
    by apply bad_add_zero.
  - exists r', (shape0 a - 1). split; [lia|]. split; [lia|].
    rewrite (item_factor_U (shape0 a)) by (done || lia).
    by rewrite decide_True by lia.
Qed.
End ZeroPivot.

(** ** Binary64 entries *)

Module B64Facts.
Import B64.

#[global] Instance b64_laws : ScalarLaws spec_float.
Proof. split; reflexivity. Qed.

Lemma eq_zero_cases (z : spec_float) :
  fneq0 z = false → ∃ s, z = S754_zero s.
Proof.
  destruct z as [s|s| |s m e]; cbn; intros Hz.
  - by exists s.
  - by destruct s.
  - done.
  - by destruct s.
Qed.

#[global] Instance b64_poison : Poison spec_float nonfinite.
Proof.
  split; unfold nonfinite.
  - intros x z [s ->]%eq_zero_cases. by destruct x.
  - intros x m y Hm.
    destruct m as [?|sm| |? ? ?]; try done.
    + destruct y as [?|sy| |? ? ?]; destruct x as [?|sx| |? ? ?]; try done;
        cbn; try done; destruct sx, sm; try destruct sy; try done;
        try destruct s; try done.
    + by destruct x.
  - intros x z Hx.
    destruct x as [?|sx| |? ? ?]; try done.
    destruct z as [?|sz| |? ? ?]; try done. cbn. by destruct sx, sz.
  - intros x p Hx.
    destruct x as [?|sx| |? ? ?]; try done.
    by destruct p.
  - intros x Hx. destruct x as [?|sx| |? ? ?]; try done. by destruct sx.
  - intros x Hx. by destruct x.
Qed.

(** Below the diagonal a binary64 zero may carry either sign; [x != 0] is
    false of both. Such an input is left alone as well: [L] is the
    identity, and [U] is the input except that [np.triu] writes [0.0] where
    the input has [-0.0]. *)
Lemma upper_triangular_signed_zeros (a : ndarray spec_float) :
  wf a → shape0 a = shape1 a →
  (∀ i j, i < shape0 a → j < i → fneq0 (item a i j) = false) →
  packed a = a ∧ count a = 0
  ∧ factor_L a = eye (shape0 a)
  ∧ ∀ i j, i < shape0 a → j < shape0 a →
      item (factor_U a) i j = item a i j
      ∨ (j < i ∧ item (factor_U a) i j = S754_zero false
         ∧ item a i j = S754_zero true).
Proof.
  intros Hw Hsq Hup.
  assert (eliminate_v (shape0 a) (shape1 a) (a, 0) = (a, 0)) as Hfix.
  { rewrite <- Hsq. by apply eliminate_v_upper. }
  split; [unfold packed; by rewrite Hfix|].
  split; [unfold count; by rewrite Hfix|]. split.
  - apply same_entries_eq; [apply wf_tabulate|apply wf_tabulate|].
    split; [done|]. split; [by simpl|].
    intros i j Hi Hj. simpl in Hi, Hj. rewrite <- Hsq in Hj.
    rewrite (item_factor_L (shape0 a)) by done.
    unfold eye. rewrite item_tabulate by done.
    destruct (Nat.eqb_spec i j) as [->|Hij].
    + rewrite decide_False by lia. by rewrite decide_True by done.
    + rewrite (decide_False (P := i = j)) by done.
      case_decide; [|done].
      destruct (eq_zero_cases _ (Hup i j Hi ltac:(done))) as [s ->].
      by destruct s.
  - intros i j Hi Hj.
    rewrite (item_factor_U (shape0 a)) by (done || lia).
    case_decide; [by left|].
    destruct (eq_zero_cases _ (Hup i j Hi ltac:(lia))) as [s Hs].
    rewrite Hs. destruct s; [right|by left]. split; [lia|done].
Qed.
End B64Facts.

(** ** Binary64 runs *)

(** C8. When a row needs a pivot that is zero, the call neither raises nor
    prints: it returns [L], [U] and a count as usual, and the quotient by
    zero, an infinity or a NaN, sits in [L] below the diagonal and has
    spread into [U]. *)
Theorem elim_gaussiana_zero_pivot (w : world spec_float) A a :
  heap w !! A = Some a → wf a → shape0 a = shape1 a →
  pivots_ok a = false →
  ∃ L U c w' l u,
    elim_gaussiana A w = (Ok (Some (L, U, c)), w')
    ∧ stdout w' = stdout w
    ∧ heap w' !! L = Some l ∧ heap w' !! U = Some u
    ∧ (∃ i j, j < i ∧ i < shape0 a ∧ B64.is_finite (item l i j) = false)
    ∧ (∃ i j, i ≤ j ∧ j < shape0 a ∧ B64.is_finite (item u i j) = false).
Proof.
  intros Hl Hw Hsq Hpiv.
  destruct (elim_gaussiana_square w A a Hl Hw Hsq)
    as (L & U & w' & Hrun & HL & HU & _ & _ & _ & _ & Hout).
  destruct (zero_pivot_factors B64.nonfinite a Hw Hsq Hpiv) as [HbadL HbadU].
  exists L, U, (count a), w', (factor_L (packed a)), (factor_U (packed a)).
  done.
Qed.

Lemma elim_gaussiana_zero_pivot_witness :
  ∃ L U c w' l u,
    elim_gaussiana 0 (store_of A_zero_pivot) = (Ok (Some (L, U, c)), w')
    ∧ stdout w' = stdout (store_of A_zero_pivot)
    ∧ heap w' !! L = Some l ∧ heap w' !! U = Some u
    ∧ (∃ i j, j < i ∧ i < shape0 A_zero_pivot ∧ B64.is_finite (item l i j) = false)
    ∧ (∃ i j, i ≤ j ∧ j < shape0 A_zero_pivot ∧ B64.is_finite (item u i j) = false).
Proof.
  apply (elim_gaussiana_zero_pivot (store_of A_zero_pivot) 0 A_zero_pivot).
  - reflexivity.
  - apply wfb_wf. reflexivity.
  - reflexivity.
  - vm_compute. reflexivity.
Defined.

(** C7. On the 7×7 array of [main] no zero pivot is met, [L @ U] gives the
    array back, the answer printed to [B=LU?] is yes, 203 operations are
    counted and the infinity norm of [U] is 64. *)
Theorem main_scenario :
  ∃ w',
    main (World ∅ []) = (Ok main_report, w')
    ∧ rep_oper main_report = 203
    ∧ rep_close main_report = true
    ∧ rep_norm main_report = B64.of_Z 64
    ∧ heap w' !! rep_B main_report = Some B7
    ∧ heap w' !! rep_L main_report = Some (factor_L (packed B7))
    ∧ heap w' !! rep_U main_report = Some (factor_U (packed B7))
    ∧ pivots_ok B7 = true
    ∧ matmul (factor_L (packed B7)) (factor_U (packed B7)) = B7
    ∧ norm_inf (factor_U (packed B7)) = B64.of_Z 64
    ∧ B64.is_finite (B64.of_Z 64) = true
    ∧ SFltb (B64.of_Z 0) (B64.of_Z 64) = true.
Proof.
  assert ((main (F:=spec_float) (World ∅ [])).1 = Ok main_report) as Hfst.
  { vm_compute. reflexivity. }
  exists (main (World ∅ [])).2. split.
  { rewrite <- Hfst. apply surjective_pairing. }
  repeat match goal with |- _ ∧ _ => split end; vm_compute; reflexivity.
Qed.

(** C1 fails as stated. The product [L @ U] of the factors of
    [[49, 0], [1, 1]] differs from the input at entry (1, 0): the
    multiplier is the rounded 1/49, and 49 times it rounds to the double
    just below 1. *)
Lemma lu_inexact_binary64 :
  heap (store_of A49) !! 0 = Some A49
  ∧ wf A49 ∧ shape0 A49 = shape1 A49 ∧ pivots_ok A49 = true
  ∧ ¬ reconstructs (store_of A49) 0 A49.
Proof.
  assert (wf A49) as Hw by (apply wfb_wf; reflexivity).
  split; [reflexivity|]. split; [done|]. split; [reflexivity|].
  split; [vm_compute; reflexivity|].
  intros (L & U & c & w' & l & u & Hrun & HL & HU & _ & _ & Hsame).
  destruct (elim_gaussiana_square (store_of A49) 0 A49 eq_refl Hw eq_refl)
    as (L0 & U0 & w0 & Hrun0 & HL0 & HU0 & _).
  rewrite Hrun0 in Hrun. injection Hrun as <- <- _ <-.
  rewrite HL0 in HL. rewrite HU0 in HU.
  injection HL as <-. injection HU as <-.
  specialize (Hsame 1 0). vm_compute in Hsame.
  assert (1 < 2) as H1 by lia. assert (0 < 2) as H0 by lia.
  specialize (Hsame H1 H0). discriminate Hsame.
Qed.

(** ** The algebra of the factorisation, in a field *)

Section Exact.
Context {F : Type} `{ExactField F}.
Implicit Types a b : ndarray F.

Add Field exact_field : field_laws.

Lemma sum_upto_ext t (f g : nat → F) :
  (∀ k, k < t → f k = g k) → sum_upto t f = sum_upto t g.
Proof.
  induction t as [|t IH]; intros Hfg; simpl; [done|].
  rewrite IH by (intros k Hk; apply Hfg; lia).
  by rewrite Hfg by lia.
Qed.

Lemma psum_ext b b' r c t :
  (∀ k, k < t → item b' r k = item b r k) →
  (∀ k, k < t → item b' k c = item b k c) →
  psum b' r c t = psum b r c t.
Proof.
  intros Hr Hc. unfold psum. apply sum_upto_ext.
  intros k Hk. by rewrite Hr, Hc.
Qed.

Lemma psum_S b r c t :
  psum b r c (S t) = fadd (psum b r c t) (fmul (item b r t) (item b t c)).
Proof. done. Qed.

Lemma cell_ok_row_le a b s s' r c :
  r ≤ s → r ≤ s' → cell_ok a b s r c → cell_ok a b s' r c.
Proof.
  intros Hs Hs'. unfold cell_ok, lu_bound.
  replace (s `min` (r `min` (c + 1))) with (s' `min` (r `min` (c + 1))) by lia.
  replace (s `min` r) with (s' `min` r) by lia. done.
Qed.

(** Rows other than [j] keep their equation when row [j] is rewritten. *)
Lemma cell_ok_frame a b b' n i j s r c :
  (∀ r' c', c' < n → r' ≠ j → item b' r' c' = item b r' c') →
  i < j → s ≤ i + 1 → r ≠ j → c < n →
  cell_ok a b s r c → cell_ok a b' s r c.
Proof.
  intros Hrows Hij Hs Hr Hc. unfold cell_ok, lu_bound. intros ->.
  rewrite (psum_ext b b').
  - by rewrite Hrows.
  - intros k Hk. apply Hrows; [lia|done].
  - intros k Hk. apply Hrows; [done|lia].
Qed.

(** Row [j] when its entry under the pivot is zero: nothing to do. *)
Lemma cell_ok_skip a b i j c :
  i < j → item b j i = fzero →
  cell_ok a b i j c → cell_ok a b (i + 1) j c.
Proof.
  intros Hij Hz. unfold cell_ok, lu_bound. intros ->.
  destruct (decide (c < i)) as [Hc|Hc].
  - replace (i `min` (j `min` (c + 1))) with ((i + 1) `min` (j `min` (c + 1))) by lia.
    rewrite !decide_False by lia. done.
  - replace ((i + 1) `min` (j `min` (c + 1))) with (S i) by lia.
    replace (i `min` (j `min` (c + 1))) with i by lia.
    rewrite psum_S, Hz.
    rewrite (decide_True (P := i `min` j ≤ c)) by lia.
    destruct (decide (c = i)) as [->|Hne].
    + rewrite decide_False by lia. rewrite Hz. ring.
    + rewrite decide_True by lia. ring.
Qed.

(** Row [j] after elimination against a nonzero pivot. *)
Lemma cell_ok_eliminated a b b' n i j c :
  (∀ r' c', c' < n → item b' r' c' = row_after i j b r' c') →
  i < j → j < n → c < n → item b i i ≠ fzero →
  cell_ok a b i j c → cell_ok a b' (i + 1) j c.
Proof.
  intros Hrow Hij Hj Hc Hpiv. unfold cell_ok, lu_bound. intros ->.
  assert (∀ t c', t ≤ i → c' < n → psum b' j c' t = psum b j c' t) as Hpsum.
  { intros t c' Ht Hc'. apply psum_ext.
    - intros k Hk. rewrite Hrow by lia. unfold row_after.
      rewrite decide_True by done. rewrite decide_False by lia.
      by rewrite decide_False by lia.
    - intros k Hk. rewrite Hrow by lia. unfold row_after.
      by rewrite decide_False by lia. }
  assert (item b' i c = item b i c) as Hpivrow.
  { rewrite Hrow by done. unfold row_after. by rewrite decide_False by lia. }
  destruct (decide (c < i)) as [Hlt|Hge].
  - replace (i `min` (j `min` (c + 1))) with (c + 1) by lia.
    replace ((i + 1) `min` (j `min` (c + 1))) with (c + 1) by lia.
    rewrite !decide_False by lia.
    by rewrite Hpsum by lia.
  - replace ((i + 1) `min` (j `min` (c + 1))) with (S i) by lia.
    replace (i `min` (j `min` (c + 1))) with i by lia.
    rewrite psum_S, Hpsum by lia.
    rewrite (decide_True (P := i `min` j ≤ c)) by lia.
    rewrite Hpivrow.
    rewrite (Hrow j i) by lia. unfold row_after at 1.
    rewrite decide_True by done. rewrite decide_True by done.
    destruct (decide (c = i)) as [->|Hne].
    + rewrite decide_False by lia. field. done.
    + rewrite decide_True by lia.
      rewrite (Hrow j c) by done. unfold row_after.
      rewrite decide_True by done. rewrite decide_False by done.
      rewrite decide_True by lia. ring.
Qed.

Lemma neq0_true (x : F) : fneq0 x = true → x ≠ fzero.
Proof. intros Hx Hz. apply neq0_spec in Hz. congruence. Qed.

Lemma stage_step a n i j s :
  shaped n n s.1 → i < j → j < n → pivot_ok s.1 i j = true →
  stage_inv a n i j s.1 → stage_inv a n i (j + 1) (eliminate_row_v i n s j).1.
Proof.
  destruct s as [b cnt]. simpl. intros Hb Hij Hj Hpiv Hinv.
  unfold pivot_ok in Hpiv.
  destruct (fneq0 (item b j i)) eqn:Hnz.
  - simpl in Hpiv. apply neq0_true in Hpiv.
    destruct (eliminate_row_v_spec n n i j b cnt) as (_ & _ & Hcells);
      [done|lia|done|done|done|].
    intros r c Hr Hc. destruct (decide (r = j)) as [->|Hne].
    + rewrite decide_True by lia.
      apply (cell_ok_eliminated a b _ n); try done.
      specialize (Hinv j c Hr Hc). by rewrite decide_False in Hinv by lia.
    + apply (cell_ok_frame a b _ n i j); try done.
      * intros r' c' Hc' Hr'. rewrite Hcells by done. unfold row_after.
        by rewrite decide_False by done.
      * case_decide; lia.
      * specialize (Hinv r c Hr Hc).
        destruct (decide (r < j)); [by rewrite decide_True by lia|].
        by rewrite decide_False by lia.
  - rewrite eliminate_row_v_skip by done. simpl.
    apply neq0_spec in Hnz.
    intros r c Hr Hc. specialize (Hinv r c Hr Hc).
    destruct (decide (r = j)) as [->|Hne].
    + rewrite decide_True by lia. rewrite decide_False in Hinv by lia.
      by apply cell_ok_skip.
    + destruct (decide (r < j)); [by rewrite decide_True by lia|].
      by rewrite decide_False by lia.
Qed.

Lemma stage_rows a n i len : ∀ lo s,
  i < lo → lo + len ≤ n → shaped n n s.1 →
  pivots_ok_rows i n (seq lo len) s = true →
  stage_inv a n i lo s.1 →
  stage_inv a n i (lo + len) (foldl (eliminate_row_v i n) s (seq lo len)).1.
Proof.
  induction len as [|len IH]; intros lo s Hlo Hlen Hs Hpiv Hinv; simpl in *.
  - by rewrite Nat.add_0_r.
  - apply andb_true_iff in Hpiv as [Hpiv Hrest].
    replace (lo + S len) with (S lo + len) by lia.
    apply IH; [lia|lia| |done|].
    + apply eliminate_row_v_shaped; (done || lia).
    + replace (S lo) with (lo + 1) by lia. apply stage_step; (done || lia).
Qed.

Lemma col_inv_stage a n i b : col_inv a n i b → stage_inv a n i (i + 1) b.
Proof.
  intros Hinv r c Hr Hc. specialize (Hinv r c Hr Hc).
  case_decide; [|done]. apply (cell_ok_row_le a b i); (done || lia).
Qed.

Lemma stage_inv_col a n i b : stage_inv a n i n b → col_inv a n (i + 1) b.
Proof.
  intros Hinv r c Hr Hc. specialize (Hinv r c Hr Hc).
  by rewrite decide_True in Hinv by done.
Qed.

Lemma col_inv_cols a n len : ∀ lo s,
  lo + len ≤ n → shaped n n s.1 →
  pivots_ok_cols n n (seq lo len) s = true →
  col_inv a n lo s.1 →
  col_inv a n (lo + len) (foldl (eliminate_col_v n n) s (seq lo len)).1.
Proof.
  induction len as [|len IH]; intros lo s Hlen Hs Hpiv Hinv; simpl in *.
  - by rewrite Nat.add_0_r.
  - apply andb_true_iff in Hpiv as [Hpiv Hrest].
    replace (lo + S len) with (S lo + len) by lia.
    apply IH; [lia| |done|].
    + apply eliminate_col_v_shaped; (done || lia).
    + replace (S lo) with (lo + 1) by lia. apply stage_inv_col.
      unfold eliminate_col_v, range in *.
      replace n with (lo + 1 + (n - (lo + 1))) at 2 by lia.
      apply stage_rows; try (done || lia).
      by apply col_inv_stage.
Qed.

Lemma col_inv_start a n : col_inv a n 0 a.
Proof.
  intros r c Hr Hc. unfold cell_ok, lu_bound.
  replace (0 `min` (r `min` (c + 1))) with 0 by lia.
  rewrite decide_True by lia. unfold psum. cbn [sum_upto]. ring.
Qed.

Lemma packed_col_inv a :
  wf a → shape0 a = shape1 a → pivots_ok a = true →
  col_inv a (shape0 a) (shape0 a) (packed a).
Proof.
  intros Hw Hsq Hpiv. unfold packed, pivots_ok, eliminate_v, range in *.
  rewrite <- Hsq in *. rewrite Nat.sub_0_r in *.
  apply (col_inv_cols a (shape0 a) (shape0 a) 0 (a, 0)); try done.
  apply col_inv_start.
Qed.

(** Entry [(r, c)] of [L @ U] in terms of the packed array. *)
Lemma lu_product_upto b n r c t :
  shape0 b = n → shape1 b = n → r < n → c < n → t ≤ n →
  sum_upto t (λ k, fmul (item (factor_L b) r k) (item (factor_U b) k c))
  = fadd (psum b r c (t `min` (r `min` (c + 1))))
         (if decide (r < t ∧ r ≤ c) then item b r c else fzero).
Proof.
  intros Hs0 Hs1 Hr Hc. induction t as [|t IH]; intros Ht.
  - replace (0 `min` (r `min` (c + 1))) with 0 by lia.
    rewrite decide_False by lia. unfold psum. cbn [sum_upto]. ring.
  - cbn [sum_upto]. rewrite IH by lia.
    rewrite (item_factor_L n), (item_factor_U n) by (done || lia).
    destruct (decide (t < r)) as [Htr|Htr].
    + rewrite (decide_False (P := r = t)) by lia.
      rewrite !(decide_False (P := _ ∧ _)) by lia.
      destruct (decide (t ≤ c)) as [Htc|Htc].
      * replace (S t `min` (r `min` (c + 1))) with (S t) by lia.
        replace (t `min` (r `min` (c + 1))) with t by lia.
        rewrite psum_S. ring.
      * replace (S t `min` (r `min` (c + 1))) with (t `min` (r `min` (c + 1))) by lia.
        ring.
    + replace (S t `min` (r `min` (c + 1))) with (t `min` (r `min` (c + 1))) by lia.
      destruct (decide (r = t)) as [->|Hne].
      * rewrite (decide_False (P := t < t ∧ _)) by lia.
        destruct (decide (t ≤ c)) as [Htc|Htc].
        -- rewrite (decide_True (P := _ ∧ _)) by lia. ring.
        -- rewrite (decide_False (P := _ ∧ _)) by lia. ring.
      * destruct (decide (r ≤ c)) as [Hrc|Hrc].
        -- rewrite !(decide_True (P := _ ∧ _)) by lia. ring.
        -- rewrite !(decide_False (P := _ ∧ _)) by lia. ring.
Qed.

Lemma lu_product b n r c :
  shape0 b = n → shape1 b = n → r < n → c < n →
  item (matmul (factor_L b) (factor_U b)) r c
  = fadd (psum b r c (lu_bound n r c))
         (if decide (n `min` r ≤ c) then item b r c else fzero).
Proof.
  intros Hs0 Hs1 Hr Hc. unfold matmul.
  replace (shape0 (factor_L b)) with n by (by rewrite <- Hs0).
  replace (shape1 (factor_U b)) with n by (by rewrite <- Hs1).
  replace (shape1 (factor_L b)) with n by (by rewrite <- Hs1).
  rewrite item_tabulate by done.
  rewrite (lu_product_upto b n) by done. unfold lu_bound.
  destruct (decide (r ≤ c)).
  - rewrite decide_True by lia. by rewrite decide_True by lia.
  - rewrite decide_False by lia. by rewrite decide_False by lia.
Qed.

Lemma packed_reconstructs a :
  wf a → shape0 a = shape1 a → pivots_ok a = true →
  same_entries (matmul (factor_L (packed a)) (factor_U (packed a))) a.
Proof.
  intros Hw Hsq Hpiv.
  destruct (packed_shaped a Hw) as (_ & Hs0 & Hs1). rewrite <- Hsq in Hs1.
  split; [by rewrite <- Hs0|]. split; [by rewrite <- Hsq, <- Hs1|].
  intros r c Hr Hc.
  replace (shape0 (matmul _ _)) with (shape0 a) in Hr by (by rewrite <- Hs0).
  replace (shape1 (matmul _ _)) with (shape0 a) in Hc by (by rewrite <- Hs1).
  rewrite (lu_product _ (shape0 a)) by done.
  symmetry. by apply packed_col_inv.
Qed.
End Exact.

(** ** Rational entries *)

Module RatFacts.
Import Rat.

Lemma neq0_false (x : Qc) : fneq0 x = false ↔ x = 0%Qc.
Proof.
  cbn. unfold Qc_eq_bool. destruct (Qcanon.Qc_eq_dec x 0%Qc) as [Heq|Hne]; simpl.
  - split; [by intros _|done].
  - split; [done|]. intros Hx. by destruct Hne.
Qed.

#[global] Instance rat_field : ExactField Qc := {|
  fopp := Qcopp;
  finv := Qcinv;
  field_laws := Qcft;
  neq0_spec := neq0_false;
|}.
End RatFacts.

(** ** Runs without rounding *)

Section Unrounded.
Implicit Types b : ndarray spec_float.
Implicit Types bq : ndarray Qc.
Implicit Types x y : spec_float.

Lemma to_Qc_zero s : to_Qc (S754_zero s) = Some 0%Qc.
Proof. done. Qed.

Lemma to_Qc_finite_nonzero s m e q :
  to_Qc (S754_finite s m e) = Some q → q ≠ 0%Qc.
Proof.
  unfold to_Qc. simpl. intros [= <-] Hz.
  apply (Q2Qc_eq_iff _ 0%Q) in Hz.
  apply Qmult_integral in Hz as [Hz|Hz].
  - by destruct s.
  - apply Qmult_integral in Hz as [Hz|Hz]; [done|].
    by apply Qpower_not_0 in Hz.
Qed.

Lemma to_Qc_one : to_Qc fone = Some 1%Qc.
Proof.
  change (fone : spec_float) with (S754_finite false 4503599627370496 (-52)).
  unfold to_Qc, to_Q. cbn [fmap option_fmap option_map]. f_equal.
  apply Qc_is_canon. vm_compute. reflexivity.
Qed.

(** The test [x != 0] on a finite entry is the test on its value. *)
Lemma neq0_value x q : to_Qc x = Some q → fneq0 q = fneq0 x.
Proof.
  destruct x as [s|s| |s m e]; intros Hq; try done.
  - rewrite to_Qc_zero in Hq. injection Hq as <-. by destruct s.
  - apply to_Qc_finite_nonzero in Hq.
    transitivity true; [|by destruct s].
    cbn. unfold Qc_eq_bool.
    by destruct (Qcanon.Qc_eq_dec q 0%Qc).
Qed.

Lemma to_Qc_is_finite x : B64.is_finite x = true ↔ is_Some (to_Qc x).
Proof.
  destruct x; simpl; split; try done; try (intros [q Hq]; done); by eexists.
Qed.

Lemma to_Qc_add_zero x q : to_Qc x = Some q → to_Qc (fadd x fzero) = Some q.
Proof. destruct x as [[]|s| |s m e]; done. Qed.

Lemma exact2_spec fop qop x y :
  exact2 fop qop x y = true →
  ∃ qx qy, to_Qc x = Some qx ∧ to_Qc y = Some qy
           ∧ to_Qc (fop x y) = Some (qop qx qy).
Proof.
  unfold exact2.
  destruct (to_Qc x) as [qx|], (to_Qc y) as [qy|], (to_Qc (fop x y)) as [qr|];
    try done.
  intros Heq%Qc_eq_bool_correct. exists qx, qy. by rewrite Heq.
Qed.

(** One row step done without rounding is the row step of exact
    arithmetic on the values. *)
Lemma stands_for_step n b bq cnt cntq i j :
  stands_for n b bq → i < j → j < n →
  pivot_ok b i j = true → exact_row_step n b i j = true →
  stands_for n (eliminate_row_v i n (b, cnt) j).1
               (eliminate_row_v i n (bq, cntq) j).1
  ∧ pivot_ok bq i j = true.
Proof.
  intros (Hb & Hbq & Hval) Hij Hj Hpiv Hex.
  assert (fneq0 (item bq j i) = fneq0 (item b j i)) as Hji
    by (apply neq0_value, Hval; lia).
  assert (fneq0 (item bq i i) = fneq0 (item b i i)) as Hii
    by (apply neq0_value, Hval; lia).
  split; [|unfold pivot_ok; by rewrite Hji, Hii].
  unfold exact_row_step in Hex.
  destruct (fneq0 (item b j i)) eqn:Hnz.
  - apply andb_true_iff in Hex as [Hdiv Hrow].
    destruct (eliminate_row_v_spec n n i j b cnt) as (Hs & _ & Hcells);
      [done|lia|done|done|done|].
    destruct (eliminate_row_v_spec n n i j bq cntq) as (Hsq & _ & Hcellsq);
      [done|lia|done|done|done|].
    split; [done|]. split; [done|]. intros r c Hr Hc.
    rewrite Hcells, Hcellsq by done. unfold row_after.
    apply exact2_spec in Hdiv as (qx & qy & Hx & Hy & Hq).
    rewrite Hval in Hx, Hy by lia. injection Hx as <-. injection Hy as <-.
    destruct (decide (r = j)) as [->|Hne]; [|by apply Hval].
    destruct (decide (c = i)) as [->|Hci]; [done|].
    destruct (decide (i < c)) as [Hic|Hic]; [|by apply Hval].
    rewrite forallb_forall in Hrow.
    specialize (Hrow c). rewrite <- list_elem_of_In, elem_of_range in Hrow.
    apply andb_true_iff in Hrow as [Hmul Hsub]; [|lia].
    apply exact2_spec in Hmul as (qm & qc & Hm & Hcq & Hprod).
    apply exact2_spec in Hsub as (qa & qp & Ha & Hp & Hdiff).
    rewrite Hq in Hm. injection Hm as <-.
    rewrite Hval in Hcq, Ha by lia. injection Hcq as <-. injection Ha as <-.
    rewrite Hprod in Hp. injection Hp as <-.
    exact Hdiff.
  - rewrite eliminate_row_v_skip by done.
    rewrite eliminate_row_v_skip by (by rewrite Hji). done.
Qed.

Lemma stands_for_rows n i len : ∀ lo s sq,
  i < lo → lo + len ≤ n → stands_for n s.1 sq.1 →
  pivots_ok_rows i n (seq lo len) s = true →
  unrounded_rows i n (seq lo len) s = true →
  stands_for n (foldl (eliminate_row_v i n) s (seq lo len)).1
               (foldl (eliminate_row_v i n) sq (seq lo len)).1
  ∧ pivots_ok_rows i n (seq lo len) sq = true.
Proof.
  induction len as [|len IH]; intros lo [b cnt] [bq cntq] Hlo Hlen Hrep Hpiv Hex;
    simpl in *; [done|].
  apply andb_true_iff in Hpiv as [Hpiv Hpivs].
  apply andb_true_iff in Hex as [Hex Hexs].
  destruct (stands_for_step n b bq cnt cntq i lo Hrep) as [Hstep Hpq];
    [lia|lia|done|done|].
  destruct (IH (S lo) (eliminate_row_v i n (b, cnt) lo)
               (eliminate_row_v i n (bq, cntq) lo)) as [Hrest Hpqs];
    [lia|lia|done|done|done|].
  split; [done|]. by rewrite Hpq, Hpqs.
Qed.

Lemma stands_for_cols n len : ∀ lo s sq,
  lo + len ≤ n → stands_for n s.1 sq.1 →
  pivots_ok_cols n n (seq lo len) s = true →
  unrounded_cols n n (seq lo len) s = true →
  stands_for n (foldl (eliminate_col_v n n) s (seq lo len)).1
               (foldl (eliminate_col_v n n) sq (seq lo len)).1
  ∧ pivots_ok_cols n n (seq lo len) sq = true.
Proof.
  induction len as [|len IH]; intros lo s sq Hlen Hrep Hpiv Hex;
    simpl in *; [done|].
  apply andb_true_iff in Hpiv as [Hpiv Hpivs].
  apply andb_true_iff in Hex as [Hex Hexs].
  unfold range in *.
  destruct (stands_for_rows n lo (n - (lo + 1)) (lo + 1) s sq) as [Hcol Hpq];
    [lia|lia|done|done|done|].
  destruct (IH (S lo) (eliminate_col_v n n s lo) (eliminate_col_v n n sq lo))
    as [Hrest Hpqs]; [lia|done|done|done|].
  split; [done|]. unfold range. by rewrite Hpq, Hpqs.
Qed.

Lemma finite_array_item b i j :
  finite_array b = true → i < shape0 b → j < shape1 b →
  B64.is_finite (item b i j) = true.
Proof.
  unfold finite_array. rewrite forallb_forall. intros Hall Hi Hj.
  specialize (Hall i). rewrite forallb_forall in Hall.
  apply Hall; apply in_seq; lia.
Qed.

Lemma finite_array_intro b :
  (∀ i j, i < shape0 b → j < shape1 b → B64.is_finite (item b i j) = true) →
  finite_array b = true.
Proof.
  intros Hall. unfold finite_array. apply forallb_forall. intros i Hi%in_seq.
  apply forallb_forall. intros j Hj%in_seq. apply Hall; lia.
Qed.

(** A finite array stands for its values. *)
Lemma stands_for_values b :
  wf b → shape0 b = shape1 b → finite_array b = true →
  stands_for (shape0 b) b (values b).
Proof.
  intros Hw Hsq Hfin. split; [done|]. split.
  - split; [apply wf_tabulate|]. by simpl.
  - intros r c Hr Hc. unfold values. rewrite <- Hsq.
    rewrite item_tabulate by done.
    destruct (proj1 (to_Qc_is_finite (item b r c))) as [q Hq].
    + apply finite_array_item; (done || lia).
    + by rewrite Hq.
Qed.

(** The values of an array that stands for [bq] are [bq]. *)
Lemma values_stands_for n b bq : stands_for n b bq → values b = bq.
Proof.
  intros ((Hw & H0 & H1) & (Hwq & Hq0 & Hq1) & Hval).
  apply same_entries_eq; [apply wf_tabulate|done|].
  split; [simpl; congruence|]. split; [simpl; congruence|].
  intros r c Hr Hc. simpl in Hr, Hc. unfold values.
  rewrite item_tabulate by done. rewrite Hval by lia. done.
Qed.

Lemma stands_for_finite n b bq : stands_for n b bq → finite_array b = true.
Proof.
  intros ((Hw & H0 & H1) & _ & Hval). apply finite_array_intro.
  intros i j Hi Hj. apply to_Qc_is_finite. rewrite Hval by lia. by eexists.
Qed.

Lemma stands_for_factor_L n b bq :
  stands_for n b bq → stands_for n (factor_L b) (factor_L bq).
Proof.
  intros ((Hw & H0 & H1) & (Hwq & Hq0 & Hq1) & Hval).
  split; [split; [apply wf_tabulate|by simpl]|].
  split; [split; [apply wf_tabulate|by simpl]|].
  intros r c Hr Hc. rewrite !(item_factor_L n) by done.
  destruct (decide (c < r)).
  - rewrite !decide_False by lia.
    rewrite (to_Qc_add_zero _ _ (Hval r c Hr Hc)). f_equal; cbn; ring.
  - destruct (decide (r = c)).
    + rewrite (add_zero_one (F := spec_float)), to_Qc_one. f_equal; cbn; ring.
    + rewrite (add_zero_zero (F := spec_float)).
      change (to_Qc fzero) with (Some 0%Qc). f_equal; cbn; ring.
Qed.

Lemma stands_for_factor_U n b bq :
  stands_for n b bq → stands_for n (factor_U b) (factor_U bq).
Proof.
  intros ((Hw & H0 & H1) & (Hwq & Hq0 & Hq1) & Hval).
  split; [split; [apply wf_tabulate|done]|].
  split; [split; [apply wf_tabulate|done]|].
  intros r c Hr Hc. rewrite !(item_factor_U n) by done.
  case_decide; [by apply Hval|done].
Qed.

(** Without rounding the packed binary64 array stands for the packed
    array of exact arithmetic, whose pivots are usable too. *)
Lemma packed_stands_for b :
  wf b → shape0 b = shape1 b → finite_array b = true →
  pivots_ok b = true → unrounded b = true →
  stands_for (shape0 b) (packed b) (packed (values b))
  ∧ pivots_ok (values b) = true.
Proof.
  intros Hw Hsq Hfin Hpiv Hex.
  pose proof (stands_for_values b Hw Hsq Hfin) as Hrep.
  unfold packed, pivots_ok, unrounded, eliminate_v, range in *.
  cbn [shape0 shape1 values tabulate].
  rewrite <- Hsq in *. rewrite Nat.sub_0_r in *.
  by apply (stands_for_cols (shape0 b) (shape0 b) 0 (b, 0) (values b, 0)).
Qed.
End Unrounded.

(** C1, for runs that do not round. Let the input be a square binary64
    array with finite entries. If no row needs a pivot that is zero and
    every quotient, product and difference computed by the elimination is
    exact, then [L] and [U] have finite entries and the matrices they
    stand for satisfy [L U = A] entry by entry. *)
Theorem elim_gaussiana_exact_when_unrounded (w : world spec_float) A a :
  heap w !! A = Some a → wf a → shape0 a = shape1 a →
  finite_array a = true → pivots_ok a = true → unrounded a = true →
  ∃ L U c w' l u,
    elim_gaussiana A w = (Ok (Some (L, U, c)), w')
    ∧ heap w' !! L = Some l ∧ heap w' !! U = Some u
    ∧ finite_array l = true ∧ finite_array u = true
    ∧ same_entries (matmul (values l) (values u)) (values a).
Proof.
  intros Hl Hw Hsq Hfin Hpiv Hex.
  destruct (elim_gaussiana_square w A a Hl Hw Hsq)
    as (L & U & w' & Hrun & HL & HU & _).
  destruct (packed_stands_for a Hw Hsq Hfin Hpiv Hex) as [Hrep Hpq].
  pose proof (stands_for_factor_L _ _ _ Hrep) as HrepL.
  pose proof (stands_for_factor_U _ _ _ Hrep) as HrepU.
  exists L, U, (count a), w', (factor_L (packed a)), (factor_U (packed a)).
  split; [done|]. split; [done|]. split; [done|].
  split; [by eapply stands_for_finite|].
  split; [by eapply stands_for_finite|].
  rewrite (values_stands_for _ _ _ HrepL), (values_stands_for _ _ _ HrepU).
  apply packed_reconstructs; [apply wf_tabulate|done|done].
Qed.

Lemma elim_gaussiana_exact_when_unrounded_witness :
  ∃ L U c w' l u,
    elim_gaussiana 0 (store_of A_full) = (Ok (Some (L, U, c)), w')
    ∧ heap w' !! L = Some l ∧ heap w' !! U = Some u
    ∧ finite_array l = true ∧ finite_array u = true
    ∧ same_entries (matmul (values l) (values u)) (values A_full).
Proof.
  apply (elim_gaussiana_exact_when_unrounded (store_of A_full) 0 A_full).
  - reflexivity.
  - apply wfb_wf. reflexivity.
  - reflexivity.
  - vm_compute. reflexivity.
  - vm_compute. reflexivity.
  - vm_compute. reflexivity.
Defined.

(** Rounding can also take the product far from the input. For
    [[2^-70, 1], [1, 1]] no pivot is zero, the multiplier is [2^70] and
    [1 - 2^70] rounds to [-2^70]: entry (1, 1) of [L @ U] is 0 and the
    check of [main] answers no. *)
Lemma lu_beyond_tolerance_binary64 :
  wf A_small_pivot ∧ finite_array A_small_pivot = true
  ∧ pivots_ok A_small_pivot = true
  ∧ ∃ w1 w2,
      elim_gaussiana 0 (store_of A_small_pivot) = (Ok (Some (4, 5, 3)), w1)
      ∧ lu_check 0 4 5 w1 = (Ok false, w2).
Proof.
  split; [apply wfb_wf; reflexivity|].
  split; [vm_compute; reflexivity|]. split; [vm_compute; reflexivity|].
  exists (elim_gaussiana 0 (store_of A_small_pivot)).2.
  exists (lu_check 0 4 5 (elim_gaussiana 0 (store_of A_small_pivot)).2).2.
  split; apply injective_projections; vm_compute; reflexivity.
Qed.

(** ** The general theorems at concrete inputs *)

Lemma elim_gaussiana_triangular_witness :
  ∃ L U c w' l u,
    elim_gaussiana 0 (store_of A_full) = (Ok (Some (L, U, c)), w')
    ∧ heap w' !! L = Some l ∧ heap w' !! U = Some u
    ∧ unit_lower_triangular (shape0 A_full) l
    ∧ upper_triangular (shape0 A_full) u.
Proof.
  apply (elim_gaussiana_triangular (store_of A_full) 0 A_full).
  - reflexivity.
  - apply wfb_wf. reflexivity.
  - reflexivity.
Defined.

Lemma elim_gaussiana_rejects_nonsquare_witness :
  ∃ Ac w',
    elim_gaussiana 0 (store_of A_3x4) = (Ok None, w')
    ∧ stdout w' = stdout (store_of A_3x4) ++ ["Matriz no cuadrada"]
    ∧ heap (store_of A_3x4) !! Ac = None
    ∧ heap w' = <[Ac:=A_3x4]> (heap (store_of A_3x4)).
Proof.
  apply (elim_gaussiana_rejects_nonsquare (store_of A_3x4) 0 A_3x4).
  - reflexivity.
  - simpl. lia.
Defined.

Lemma elim_gaussiana_preserves_input_witness :
  ∃ r w', elim_gaussiana 0 (store_of A_full) = (Ok r, w')
          ∧ heap w' !! 0 = Some A_full
          ∧ ∀ (B : loc) b, heap (store_of A_full) !! B = Some b → heap w' !! B = Some b.
Proof.
  apply (elim_gaussiana_preserves_input (store_of A_full) 0 A_full).
  - reflexivity.
  - apply wfb_wf. reflexivity.
Defined.

Lemma elim_gaussiana_op_count_witness :
  (∃ L U c w',
     elim_gaussiana 0 (store_of A_full) = (Ok (Some (L, U, c)), w')
     ∧ c = rule_count (shape0 A_full) (step_pairs (shape0 A_full)) A_full)
  ∧ (∀ Ac i j (b : ndarray spec_float) cnt w1,
       heap w1 !! Ac = Some b → wf b → j < shape0 b → i < shape1 b →
       fneq0 (item b j i) = false →
       eliminate_row Ac i (shape0 A_full) j cnt w1 = (Ok cnt, w1)).
Proof.
  apply (elim_gaussiana_op_count (store_of A_full) 0 A_full).
  - reflexivity.
  - apply wfb_wf. reflexivity.
  - reflexivity.
Defined.

Lemma elim_gaussiana_deterministic_witness :
  ∃ r1 w1 r2 w2,
    elim_gaussiana 0 (store_of A_full) = (Ok r1, w1)
    ∧ elim_gaussiana 0 w1 = (Ok r2, w2)
    ∧ same_result w2 r1 r2.
Proof.
  apply (elim_gaussiana_deterministic (store_of A_full) 0 A_full).
  - reflexivity.
  - apply wfb_wf. reflexivity.
Defined.

Lemma elim_gaussiana_upper_triangular_witness :
  packed A_upper = A_upper
  ∧ ∃ L U w',
      elim_gaussiana 0 (store_of A_upper) = (Ok (Some (L, U, 0)), w')
      ∧ heap w' !! L = Some (eye (shape0 A_upper))
      ∧ heap w' !! U = Some A_upper.
Proof.
  apply (elim_gaussiana_upper_triangular (store_of A_upper) 0 A_upper).
  - reflexivity.
  - apply wfb_wf. reflexivity.
  - reflexivity.
  - intros i j Hi Hj. simpl in Hi.
    destruct i as [|[|[|i]]]; [lia| | |lia].
    + destruct j as [|j]; [reflexivity|lia].
    + destruct j as [|[|j]]; [reflexivity|reflexivity|lia].
Defined.

Lemma elim_gaussiana_total_witness :
  ∃ r w', elim_gaussiana 0 (store_of A_zero_pivot) = (Ok r, w')
    ∧ (shape0 A_zero_pivot ≠ shape1 A_zero_pivot → r = None)
    ∧ (shape0 A_zero_pivot = shape1 A_zero_pivot → ∃ L U c, r = Some (L, U, c)).
Proof.
  apply (elim_gaussiana_total (store_of A_zero_pivot) 0 A_zero_pivot).
  - reflexivity.
  - apply wfb_wf. reflexivity.
Defined.

(** * Further properties of [elim_gaussiana] *)

Section Further.
Context {F : Type} `{Scalar F}.
Implicit Types a b : ndarray F.
Implicit Types w : world F.

Lemma elem_of_step_pairs n i j : (i, j) ∈ step_pairs n ↔ i < j ∧ j < n.
Proof.
  unfold step_pairs. rewrite list_elem_of_In, in_flat_map. split.
  - intros (i' & Hi' & Hin). apply in_map_iff in Hin as (j' & Heq & Hj').
    injection Heq as -> ->.
    apply list_elem_of_In, elem_of_range in Hj'. lia.
  - intros [Hij Hj]. exists i. split.
    + apply list_elem_of_In, elem_of_range. lia.
    + apply in_map_iff. exists j. split; [done|].
      apply list_elem_of_In, elem_of_range. lia.
Qed.

(** A property of the working array that every row step keeps holds of
    the packed array. *)
Lemma pairs_invariant (P : ndarray F → Prop) n ps s :
  (∀ i j, (i, j) ∈ ps → i < j ∧ j < n) →
  (∀ i j b cnt, shaped n n b → i < j → j < n →
     P b → P (eliminate_row_v i n (b, cnt) j).1) →
  shaped n n s.1 → P s.1 →
  shaped n n (foldl (λ s p, eliminate_row_v p.1 n s p.2) s ps).1
  ∧ P (foldl (λ s p, eliminate_row_v p.1 n s p.2) s ps).1.
Proof.
  intros Hps Hstep. revert s Hps.
  induction ps as [|[i j] ps IH]; intros s Hps Hs HP; simpl; [done|].
  destruct (Hps i j) as [Hij Hj]; [left|].
  apply IH.
  - intros i' j' Hin. apply Hps. by right.
  - apply eliminate_row_v_shaped; (done || lia).
  - destruct s as [b cnt]. by apply Hstep.
Qed.

Lemma packed_invariant (P : ndarray F → Prop) a :
  wf a → shape0 a = shape1 a →
  (∀ i j b cnt, shaped (shape0 a) (shape0 a) b → i < j → j < shape0 a →
     P b → P (eliminate_row_v i (shape0 a) (b, cnt) j).1) →
  P a → P (packed a).
Proof.
  intros Hw Hsq Hstep HP. unfold packed. rewrite <- Hsq, eliminate_v_pairs.
  apply (pairs_invariant P); try done.
  intros i j Hin. by apply elem_of_step_pairs.
Qed.

Lemma count_rule a :
  shape0 a = shape1 a →
  count a = rule_count (shape0 a) (step_pairs (shape0 a)) a.
Proof.
  intros Hsq. unfold count. by rewrite <- Hsq, eliminate_v_pairs, pairs_count.
Qed.

(** X1. The first row of [U] is the first row of the input, entry for
    entry: row 0 of the working copy is never written. *)
Theorem elim_gaussiana_first_row w A a :
  heap w !! A = Some a → wf a → shape0 a = shape1 a →
  ∃ L U c w' u,
    elim_gaussiana A w = (Ok (Some (L, U, c)), w')
    ∧ heap w' !! U = Some u
    ∧ ∀ k, k < shape0 a → item u 0 k = item a 0 k.
Proof.
  intros Hl Hw Hsq.
  destruct (elim_gaussiana_square w A a Hl Hw Hsq)
    as (L & U & w' & Hrun & _ & HU & _).
  destruct (packed_shaped a Hw) as (_ & Hp0 & Hp1). rewrite <- Hsq in Hp1.
  exists L, U, (count a), w', (factor_U (packed a)).
  split; [done|]. split; [done|]. intros k Hk.
  rewrite (item_factor_U (shape0 a)) by (done || lia).
  rewrite decide_True by lia.
  revert k Hk.
  apply (packed_invariant (λ b, ∀ k, k < shape0 a → item b 0 k = item a 0 k));
    try done.
  intros i j b cnt Hb Hij Hj HP k Hk.
  rewrite (eliminate_row_v_frame (shape0 a) (shape0 a) i j (b, cnt) 0 k);
    try (done || lia).
  by apply HP.
Qed.

(** X2. For a square input nothing is printed, and the factors returned
    are two new rectangular [n]×[n] arrays: they are distinct from each
    other and from every array the caller already holds, the input
    included. *)
Theorem elim_gaussiana_fresh_factors w A a :
  heap w !! A = Some a → wf a → shape0 a = shape1 a →
  ∃ L U c w' l u,
    elim_gaussiana A w = (Ok (Some (L, U, c)), w')
    ∧ stdout w' = stdout w
    ∧ heap w' !! L = Some l ∧ heap w' !! U = Some u
    ∧ L ≠ U ∧ (L ∉ dom (heap w)) ∧ (U ∉ dom (heap w))
    ∧ shaped (shape0 a) (shape0 a) l ∧ shaped (shape0 a) (shape0 a) u.
Proof.
  intros Hl Hw Hsq.
  destruct (elim_gaussiana_square w A a Hl Hw Hsq)
    as (L & U & w' & Hrun & HL & HU & HfL & HfU & Hne & _ & Hout).
  destruct (packed_shaped a Hw) as (_ & Hp0 & Hp1). rewrite <- Hsq in Hp1.
  exists L, U, (count a), w', (factor_L (packed a)), (factor_U (packed a)).
  split; [done|]. split; [done|]. split; [done|]. split; [done|].
  split; [done|]. split; [by apply not_elem_of_dom|].
  split; [by apply not_elem_of_dom|].
  split; (split; [apply wf_tabulate|done]).
Qed.

Lemma rows_count_le i n js s :
  (foldl (eliminate_row_v i n) s js).2
  ≤ s.2 + length js * (2 * (n - (i + 1)) + 1).
Proof.
  revert s. induction js as [|j js IH]; intros [b cnt]; simpl; [lia|].
  etrans; [apply IH|].
  rewrite eliminate_row_v_count. unfold op_rule, range. rewrite length_seq.
  destruct (fneq0 (item b j i)); lia.
Qed.

Lemma cols_count_le n len : ∀ lo s,
  lo + len ≤ n →
  (foldl (eliminate_col_v n n) s (seq lo len)).2 + dense_count (n - lo - len)
  ≤ s.2 + dense_count (n - lo).
Proof.
  induction len as [|len IH]; intros lo s Hlen; simpl.
  - rewrite Nat.sub_0_r. lia.
  - specialize (IH (S lo) (eliminate_col_v n n s lo) ltac:(lia)).
    replace (n - lo - S len) with (n - S lo - len) by lia.
    pose proof (rows_count_le lo n (range (lo + 1) n) s) as Hrows.
    unfold range in Hrows. rewrite length_seq in Hrows.
    fold (range (lo + 1) n) in Hrows. fold (eliminate_col_v n n s lo) in Hrows.
    replace (n - lo) with (S (n - S lo)) by lia. simpl.
    replace (n - (lo + 1)) with (n - S lo) in Hrows by lia.
    lia.
Qed.

Lemma dense_count_closed d : 6 * dense_count d = d * (d - 1) * (4 * d + 1).
Proof.
  induction d as [|e IH]; simpl; [done|].
  rewrite Nat.sub_0_r. destruct e as [|e]; simpl in *; [done|].
  rewrite Nat.sub_0_r in IH. nia.
Qed.

Lemma count_le_dense a :
  shape0 a = shape1 a → count a ≤ dense_count (shape0 a).
Proof.
  intros Hsq. unfold count, eliminate_v, range. rewrite <- Hsq, Nat.sub_0_r.
  pose proof (cols_count_le (shape0 a) (shape0 a) 0 (a, 0) ltac:(lia)) as Hle.
  rewrite Nat.sub_0_r, Nat.sub_diag in Hle. simpl in Hle. lia.
Qed.

(** X3. On an [n]×[n] input the count returned is at most
    [n (n - 1) (4 n + 1) / 6], the count of a run that skips no row. *)
Theorem elim_gaussiana_count_bound w A a :
  heap w !! A = Some a → wf a → shape0 a = shape1 a →
  ∃ L U c w',
    elim_gaussiana A w = (Ok (Some (L, U, c)), w')
    ∧ c ≤ dense_count (shape0 a)
    ∧ 6 * c ≤ shape0 a * (shape0 a - 1) * (4 * shape0 a + 1).
Proof.
  intros Hl Hw Hsq.
  destruct (elim_gaussiana_square w A a Hl Hw Hsq) as (L & U & w' & Hrun & _).
  exists L, U, (count a), w'. split; [done|].
  pose proof (count_le_dense a Hsq) as Hle. split; [done|].
  rewrite <- dense_count_closed. lia.
Qed.

Lemma rule_count_zero n ps b :
  rule_count n ps b = 0 ↔ ∀ i j, (i, j) ∈ ps → fneq0 (item b j i) = false.
Proof.
  induction ps as [|[i j] ps IH]; simpl.
  - split; [|done]. intros _ i j Hin. by apply elem_of_nil in Hin.
  - unfold op_rule at 1. destruct (fneq0 (item b j i)) eqn:Hnz.
    + split; [lia|]. intros Hall. rewrite Hall in Hnz by left. done.
    + rewrite eliminate_row_v_skip by done. simpl. rewrite IH. split.
      * intros Hall i' j' [Heq|Hin]%elem_of_cons; [by injection Heq as -> ->|].
        by apply Hall.
      * intros Hall i' j' Hin. apply Hall. by right.
Qed.

(** X4. The count returned for a square input is 0 exactly when every
    entry below the diagonal of the input tests equal to zero. *)
Theorem elim_gaussiana_count_zero w A a :
  heap w !! A = Some a → wf a → shape0 a = shape1 a →
  ∃ L U c w',
    elim_gaussiana A w = (Ok (Some (L, U, c)), w')
    ∧ (c = 0 ↔ ∀ i j, i < shape0 a → j < i → fneq0 (item a i j) = false).
Proof.
  intros Hl Hw Hsq.
  destruct (elim_gaussiana_square w A a Hl Hw Hsq) as (L & U & w' & Hrun & _).
  exists L, U, (count a), w'. split; [done|].
  rewrite (count_rule a Hsq), rule_count_zero. split.
  - intros Hall i j Hi Hj. apply Hall, elem_of_step_pairs. lia.
  - intros Hall i j [Hij Hj]%elem_of_step_pairs. by apply Hall.
Qed.

(** An input with zeros below its diagonal is its own packed array, and
    its factors are the identity and itself. *)
Lemma upper_input_factors `{!ScalarLaws F} a :
  wf a → shape0 a = shape1 a →
  (∀ i j, i < shape0 a → j < i → item a i j = fzero) →
  count a = 0 ∧ factor_L (packed a) = eye (shape0 a) ∧ factor_U (packed a) = a.
Proof.
  intros Hw Hsq Hup.
  assert (eliminate_v (shape0 a) (shape1 a) (a, 0) = (a, 0)) as Hfix.
  { rewrite <- Hsq. apply eliminate_v_upper.
    intros i j Hi Hj. rewrite Hup by done. apply neq0_zero. }
  unfold count, packed. rewrite Hfix. simpl. split; [done|]. split.
  - apply same_entries_eq; [apply wf_tabulate|apply wf_tabulate|].
    split; [done|]. split; [by simpl|].
    intros i j Hi Hj. simpl in Hi, Hj. rewrite <- Hsq in Hj.
    rewrite (item_factor_L (shape0 a)) by done.
    unfold eye. rewrite item_tabulate by done.
    destruct (Nat.eqb_spec i j) as [->|Hij].
    + rewrite decide_False by lia. rewrite decide_True by done. apply add_zero_one.
    + rewrite (decide_False (P := i = j)) by done.
      case_decide; [rewrite Hup by done|]; apply add_zero_zero.
  - apply same_entries_eq; [apply wf_tabulate|done|].
    split; [done|]. split; [done|].
    intros i j Hi Hj. simpl in Hi, Hj.
    rewrite (item_factor_U (shape0 a)) by (done || lia).
    case_decide; [done|]. symmetry. apply Hup; lia.
Qed.

(** X5. Factorising the [U] that a first call returned changes nothing:
    the second call counts 0 operations, returns the identity as [L] and
    an array equal to that [U] as its [U]. This holds whatever the first
    call met, a zero pivot included. *)
Theorem elim_gaussiana_on_U `{!ScalarLaws F} w A a :
  heap w !! A = Some a → wf a → shape0 a = shape1 a →
  ∃ L U c w1 u L2 U2 w2,
    elim_gaussiana A w = (Ok (Some (L, U, c)), w1)
    ∧ heap w1 !! U = Some u
    ∧ elim_gaussiana U w1 = (Ok (Some (L2, U2, 0)), w2)
    ∧ heap w2 !! L2 = Some (eye (shape0 a))
    ∧ heap w2 !! U2 = Some u
    ∧ heap w2 !! U = Some u.
Proof.
  intros Hl Hw Hsq.
  destruct (elim_gaussiana_square w A a Hl Hw Hsq)
    as (L & U & w1 & Hrun & _ & HU & _).
  destruct (packed_shaped a Hw) as (_ & Hp0 & Hp1). rewrite <- Hsq in Hp1.
  set (u := factor_U (packed a)) in *.
  assert (wf u) as Hwu by apply wf_tabulate.
  assert (shape0 u = shape0 a) as Hu0 by done.
  assert (shape1 u = shape0 a) as Hu1 by done.
  assert (shape0 u = shape1 u) as Hsqu by congruence.
  destruct (elim_gaussiana_square w1 U u HU Hwu Hsqu)
    as (L2 & U2 & w2 & Hrun2 & HL2 & HU2 & _ & _ & _ & Hext & _).
  destruct (upper_input_factors u Hwu Hsqu) as (Hc & HfL & HfU).
  { intros i j Hi Hj. rewrite Hu0 in Hi. unfold u.
    rewrite (item_factor_U (shape0 a)) by (done || lia).
    by rewrite decide_False by lia. }
  rewrite Hc in Hrun2. rewrite HfL, Hu0 in HL2. rewrite HfU in HU2.
  exists L, U, (count a), w1, u, L2, U2, w2.
  split; [done|]. split; [done|]. split; [done|]. split; [done|].
  split; [done|]. by apply Hext.
Qed.

(** X6. An empty or a 1×1 square input has no row below a pivot: whatever
    its entry, a zero or a NaN included, nothing is divided, the count is
    0, [L] is the identity and [U] is the input. *)
Theorem elim_gaussiana_tiny `{!ScalarLaws F} w A a :
  heap w !! A = Some a → wf a → shape0 a = shape1 a → shape0 a ≤ 1 →
  ∃ L U w',
    elim_gaussiana A w = (Ok (Some (L, U, 0)), w')
    ∧ heap w' !! L = Some (eye (shape0 a))
    ∧ heap w' !! U = Some a.
Proof.
  intros Hl Hw Hsq Hn.
  destruct (elim_gaussiana_square w A a Hl Hw Hsq)
    as (L & U & w' & Hrun & HL & HU & _).
  destruct (upper_input_factors a Hw Hsq) as (Hc & HfL & HfU).
  { intros i j Hi Hj. lia. }
  rewrite Hc in Hrun. rewrite HfL in HL. rewrite HfU in HU.
  by exists L, U, w'.
Qed.

(** Column 0 while the rows under the first pivot are treated: the rows
    before [lo] hold their multiplier, the others their input entry. *)
Lemma first_col_rows a n len : ∀ lo s,
  1 ≤ lo → lo + len ≤ n → shaped n n s.1 →
  (item s.1 0 0 = item a 0 0
   ∧ ∀ j, 0 < j → j < n →
       item s.1 j 0 = if decide (j < lo) then first_multiplier a j else item a j 0) →
  let s' := foldl (eliminate_row_v 0 n) s (seq lo len) in
  item s'.1 0 0 = item a 0 0
  ∧ ∀ j, 0 < j → j < n →
      item s'.1 j 0
      = if decide (j < lo + len) then first_multiplier a j else item a j 0.
Proof.
  induction len as [|len IH]; intros lo [b cnt] Hlo Hlen Hb [H00 Hcol]; simpl in *.
  - by rewrite Nat.add_0_r.
  - replace (lo + S len) with (S lo + len) by lia.
    apply IH; [lia|lia|apply eliminate_row_v_shaped; (done || lia)|].
    split.
    + rewrite (eliminate_row_v_frame n n 0 lo (b, cnt) 0 0); (done || lia).
    + intros j Hj0 Hjn. destruct (decide (j = lo)) as [->|Hne].
      * rewrite decide_True by lia.
        specialize (Hcol lo Hj0 Hjn). rewrite decide_False in Hcol by lia.
        unfold first_multiplier. rewrite <- Hcol, <- H00.
        destruct (fneq0 (item b lo 0)) eqn:Hnz.
        -- destruct (eliminate_row_v_spec n n 0 lo b cnt) as (_ & _ & Hcells);
             [done|lia|done|done|done|].
           rewrite Hcells by lia. unfold row_after.
           rewrite decide_True by done. by rewrite decide_True by done.
        -- by rewrite eliminate_row_v_skip.
      * rewrite (eliminate_row_v_frame n n 0 lo (b, cnt) j 0);
          [|done|lia|lia|lia|lia|by left].
        simpl. rewrite Hcol by done.
        destruct (decide (j < lo)); [by rewrite decide_True by lia|].
        by rewrite decide_False by lia.
Qed.

(** The later columns leave column 0 alone. *)
Lemma later_rows_col0 n i js s r :
  1 ≤ i → i < n → (∀ j, j ∈ js → i < j ∧ j < n) → shaped n n s.1 →
  item (foldl (eliminate_row_v i n) s js).1 r 0 = item s.1 r 0.
Proof.
  intros Hi Hin. revert s.
  induction js as [|j js IH]; intros s Hjs Hs; simpl; [done|].
  destruct (Hjs j) as [Hij Hj]; [left|].
  rewrite IH.
  - apply (eliminate_row_v_frame n n); (done || lia || (right; lia)).
  - intros j' Hj'. apply Hjs. by right.
  - apply eliminate_row_v_shaped; (done || lia).
Qed.

Lemma later_cols_col0 n cols s r :
  (∀ i, i ∈ cols → 1 ≤ i ∧ i < n) → shaped n n s.1 →
  item (foldl (eliminate_col_v n n) s cols).1 r 0 = item s.1 r 0.
Proof.
  revert s. induction cols as [|i cols IH]; intros s Hcols Hs; simpl; [done|].
  destruct (Hcols i) as [Hi Hin]; [left|].
  rewrite IH.
  - unfold eliminate_col_v. apply later_rows_col0; try done.
    intros j Hj%elem_of_range. lia.
  - intros i' Hi'. apply Hcols. by right.
  - by apply eliminate_col_v_shaped.
Qed.

Lemma packed_first_column a j :
  wf a → shape0 a = shape1 a → 0 < j → j < shape0 a →
  item (packed a) j 0 = first_multiplier a j.
Proof.
  intros Hw Hsq Hj0 Hjn. unfold packed, eliminate_v, range.
  rewrite <- Hsq, Nat.sub_0_r.
  destruct (shape0 a) as [|n'] eqn:Hn; [lia|]. simpl.
  assert (shaped (S n') (S n') a) as Hs by (split; [done|split; congruence]).
  rewrite later_cols_col0.
  - unfold eliminate_col_v, range.
    destruct (first_col_rows a (S n') (S n' - (0 + 1)) (0 + 1) (a, 0))
      as [_ Hcol]; [lia|lia|done| |].
    + split; [done|]. intros j' Hj' _. by rewrite decide_False by lia.
    + rewrite Hcol by done. by rewrite decide_True by lia.
  - intros i Hi%elem_of_seq. lia.
  - apply eliminate_col_v_shaped; [done|lia].
Qed.

(** X7. Below the diagonal the first column of [L] holds the first column
    of the input divided by the first pivot [A[0][0]], entry by entry (the
    entry itself where it tests zero), each plus the zero of
    [np.eye]. *)
Theorem elim_gaussiana_first_column w A a :
  heap w !! A = Some a → wf a → shape0 a = shape1 a →
  ∃ L U c w' l,
    elim_gaussiana A w = (Ok (Some (L, U, c)), w')
    ∧ heap w' !! L = Some l
    ∧ ∀ j, 0 < j → j < shape0 a →
        item l j 0 = fadd (first_multiplier a j) fzero.
Proof.
  intros Hl Hw Hsq.
  destruct (elim_gaussiana_square w A a Hl Hw Hsq)
    as (L & U & w' & Hrun & HL & _).
  destruct (packed_shaped a Hw) as (_ & Hp0 & Hp1). rewrite <- Hsq in Hp1.
  exists L, U, (count a), w', (factor_L (packed a)).
  split; [done|]. split; [done|]. intros j Hj0 Hjn.
  rewrite (item_factor_L (shape0 a)) by (done || lia).
  rewrite decide_True by lia. rewrite decide_False by lia.
  by rewrite packed_first_column.
Qed.
End Further.

(** ** The further properties at concrete inputs *)

Lemma elim_gaussiana_first_row_witness :
  ∃ L U c w' u,
    elim_gaussiana 0 (store_of A_full) = (Ok (Some (L, U, c)), w')
    ∧ heap w' !! U = Some u
    ∧ ∀ k, k < shape0 A_full → item u 0 k = item A_full 0 k.
Proof.
  apply (elim_gaussiana_first_row (store_of A_full) 0 A_full).
  - reflexivity.
  - apply wfb_wf. reflexivity.
  - reflexivity.
Defined.

Lemma elim_gaussiana_fresh_factors_witness :
  ∃ L U c w' l u,
    elim_gaussiana 0 (store_of A_full) = (Ok (Some (L, U, c)), w')
    ∧ stdout w' = stdout (store_of A_full)
    ∧ heap w' !! L = Some l ∧ heap w' !! U = Some u
    ∧ L ≠ U ∧ (L ∉ dom (heap (store_of A_full)))
    ∧ (U ∉ dom (heap (store_of A_full)))
    ∧ shaped (shape0 A_full) (shape0 A_full) l
    ∧ shaped (shape0 A_full) (shape0 A_full) u.
Proof.
  apply (elim_gaussiana_fresh_factors (store_of A_full) 0 A_full).
  - reflexivity.
  - apply wfb_wf. reflexivity.
  - reflexivity.
Defined.

Lemma elim_gaussiana_count_bound_witness :
  ∃ L U c w',
    elim_gaussiana 0 (store_of A_full) = (Ok (Some (L, U, c)), w')
    ∧ c ≤ dense_count (shape0 A_full)
    ∧ 6 * c ≤ shape0 A_full * (shape0 A_full - 1) * (4 * shape0 A_full + 1).
Proof.
  apply (elim_gaussiana_count_bound (store_of A_full) 0 A_full).
  - reflexivity.
  - apply wfb_wf. reflexivity.
  - reflexivity.
Defined.

Lemma elim_gaussiana_count_zero_witness :
  ∃ L U c w',
    elim_gaussiana 0 (store_of A_full) = (Ok (Some (L, U, c)), w')
    ∧ (c = 0 ↔ ∀ i j, i < shape0 A_full → j < i → fneq0 (item A_full i j) = false).
Proof.
  apply (elim_gaussiana_count_zero (store_of A_full) 0 A_full).
  - reflexivity.
  - apply wfb_wf. reflexivity.
  - reflexivity.
Defined.

Lemma elim_gaussiana_on_U_witness :
  ∃ L U c w1 u L2 U2 w2,
    elim_gaussiana 0 (store_of A_zero_pivot) = (Ok (Some (L, U, c)), w1)
    ∧ heap w1 !! U = Some u
    ∧ elim_gaussiana U w1 = (Ok (Some (L2, U2, 0)), w2)
    ∧ heap w2 !! L2 = Some (eye (shape0 A_zero_pivot))
    ∧ heap w2 !! U2 = Some u
    ∧ heap w2 !! U = Some u.
Proof.
  apply (elim_gaussiana_on_U (store_of A_zero_pivot) 0 A_zero_pivot).
  - reflexivity.
  - apply wfb_wf. reflexivity.
  - reflexivity.
Defined.

Lemma elim_gaussiana_tiny_witness :
  ∃ L U w',
    elim_gaussiana 0 (store_of A_1x1_zero) = (Ok (Some (L, U, 0)), w')
    ∧ heap w' !! L = Some (eye (shape0 A_1x1_zero))
    ∧ heap w' !! U = Some A_1x1_zero.
Proof.
  apply (elim_gaussiana_tiny (store_of A_1x1_zero) 0 A_1x1_zero).
  - reflexivity.
  - apply wfb_wf. reflexivity.
  - reflexivity.
  - simpl. lia.
Defined.

Lemma elim_gaussiana_first_column_witness :
  ∃ L U c w' l,
    elim_gaussiana 0 (store_of A_full) = (Ok (Some (L, U, c)), w')
    ∧ heap w' !! L = Some l
    ∧ ∀ j, 0 < j → j < shape0 A_full →
        item l j 0 = fadd (first_multiplier A_full j) fzero.
Proof.
  apply (elim_gaussiana_first_column (store_of A_full) 0 A_full).
  - reflexivity.
  - apply wfb_wf. reflexivity.
  - reflexivity.
Defined.
